(** * A bounded binary max-heap and its heapsort (src/data_structures/heap.js)

    The class [MaxHeap] of the JavaScript source is embedded shallowly:
    - a JavaScript array is a [list slot]; reading past the end yields
      [undefined], writing past the end extends the array;
    - arrays live in a memory indexed by references, so that the array handed
      to the constructor and the heap's [_storage] are the same object;
    - methods are state transformers over the object's fields and the memory,
      in a small monad with exceptions;
    - priorities are JavaScript numbers restricted to the integers ([Z]); an
      absent priority ([undefined]) is [None];
    - the recursive loops [_float] and [_sink] take a fuel argument, and the
      development proves that enough fuel always exists.

    The file has three parts: the program, the predicates and drivers the
    theorems are stated with, and the lemmas and theorems. *)

From Stdlib Require Import ZArith Lia Sorted.
From stdpp Require Import base option list gmap strings.

(** ** Values, records and array slots *)

Inductive value :=
| VUndefined
| VNum (z : Z)
| VStr (s : string).

(** A record [{priority, element}]; [priority = None] is [undefined]. *)
Record record := Rec { priority : option Z; element : value }.

(** What a cell of the storage array can hold. *)
Inductive slot :=
| SUndefined
| SNull
| SRec (r : record).

Inductive error :=
| HeapFull    (* Error("Heap is already full") *)
| TypeError.  (* property access on null or undefined *)

Inductive res (A : Type) :=
| Ok (a : A)
| Throw (e : error)
| NoFuel.
Arguments Ok {A} a.
Arguments Throw {A} e.
Arguments NoFuel {A}.

Definition loc := nat.

(** The fields of a [MaxHeap] object. *)
Record MaxHeap := mkMaxHeap { _storage : loc; size : nat; _count : nat }.

Record state := mkState { this : MaxHeap; mem : gmap loc (list slot) }.

Definition DEFAULT_SIZE : nat := 1023.

(** ** JavaScript arrays *)

Definition aget (a : list slot) (i : nat) : slot := default SUndefined (a !! i).

Definition aset (a : list slot) (i : nat) (v : slot) : list slot :=
  if decide (i < length a) then <[i:=v]> a
  else a ++ replicate (i - length a) SUndefined ++ [v].

(** [a < b] on numbers; any comparison with [undefined] is false. *)
Definition lt_js (a b : option Z) : bool :=
  match a, b with
  | Some x, Some y => bool_decide (x < y)%Z
  | _, _ => false
  end.

Definition gt_js (a b : option Z) : bool := lt_js b a.

(** ** The monad of methods *)

Definition M (A : Type) : Type := state -> res A * state.

Definition ret {A} (a : A) : M A := fun s => (Ok a, s).

Definition throw {A} (e : error) : M A := fun s => (Throw e, s).

Definition out_of_fuel {A} : M A := fun s => (NoFuel, s).

Definition bind {A B} (m : M A) (f : A -> M B) : M B :=
  fun s =>
    match m s with
    | (Ok a, s') => f a s'
    | (Throw e, s') => (Throw e, s')
    | (NoFuel, s') => (NoFuel, s')
    end.

Notation "'let!' x ':=' m 'in' k" := (bind m (fun x => k))
  (at level 10, x name, m at level 100, k at level 200).
Notation "m '>>' k" := (bind m (fun _ => k))
  (at level 100, k at level 200, right associativity).

Definition storage (s : state) : list slot := mem s !!! _storage (this s).

Definition get_storage : M loc := fun s => (Ok (_storage (this s)), s).
Definition get_size : M nat := fun s => (Ok (size (this s)), s).
Definition get_count : M nat := fun s => (Ok (_count (this s)), s).

Definition set_count (c : nat) : M unit := fun s =>
  (Ok tt, mkState (mkMaxHeap (_storage (this s)) (size (this s)) c) (mem s)).

(** [this._storage[i]] *)
Definition read (i : nat) : M slot := fun s => (Ok (aget (storage s) i), s).

(** [this._storage[i] = v] *)
Definition write (i : nat) (v : slot) : M unit := fun s =>
  (Ok tt, mkState (this s) (<[_storage (this s) := aset (storage s) i v]> (mem s))).

(** [v.priority] and [v.element] *)
Definition priority_of (v : slot) : M (option Z) :=
  match v with
  | SRec r => ret (priority r)
  | _ => throw TypeError
  end.

Definition element_of (v : slot) : M value :=
  match v with
  | SRec r => ret (element r)
  | _ => throw TypeError
  end.

(** [this._storage[i].priority] *)
Definition prio (i : nat) : M (option Z) := let! v := read i in priority_of v.

(** ** Index arithmetic *)

Definition _left (i : nat) : nat := 2 * i.
Definition _right (i : nat) : nat := 2 * i + 1.
Definition _parent (i : nat) : nat := i / 2.

(** ** Private methods *)

Definition _swap (i j : nat) : M unit :=
  let! temp := read i in
  let! other := read j in
  write i other >> write j temp.

(** The condition of the loop of [_float]. *)
Definition _float_cond (i : nat) : M bool :=
  if _parent i =? 0 then ret false
  else
    let! a := prio i in
    let! b := prio (_parent i) in
    ret (gt_js a b).

(** One unit of fuel per test of the loop condition; a further iteration of
    the [while] is the last call, on the same [i]. *)
Fixpoint _float (fuel : nat) (i : nat) : M unit :=
  match fuel with
  | O => out_of_fuel
  | S f =>
      let! c := _float_cond i in
      if c then _swap i (_parent i) >> _float f (_parent i) >> _float f i
      else ret tt
  end.

(** [k <= this._count && this._storage[i].priority < this._storage[k].priority] *)
Definition _child_greater (i k : nat) : M bool :=
  let! c := get_count in
  if k <=? c then
    let! a := prio i in
    let! b := prio k in
    ret (lt_js a b)
  else ret false.

Definition _sink_cond (i : nat) : M bool :=
  let! l := _child_greater i (_left i) in
  if l then ret true else _child_greater i (_right i).

(** [this._storage[i].priority < this._storage[k].priority] *)
Definition _less (i k : nat) : M bool :=
  let! a := prio i in
  let! b := prio k in
  ret (lt_js a b).

Fixpoint _sink (fuel : nat) (i : nat) : M unit :=
  match fuel with
  | O => out_of_fuel
  | S f =>
      let left := _left i in
      let right := _right i in
      let! c := _sink_cond i in
      if c then
        let! l := _less i left in
        if l then _swap i left >> _sink f left >> _sink f i
        else
          let! r := _less i right in
          if r then _swap i right >> _sink f right >> _sink f i
          else ret tt
      else ret tt
  end.

(** [for (let i = start; i <= this.size; i += 1) this._sink(i)] *)
Fixpoint _buildheap_from (fuel : nat) (i : nat) : M unit :=
  match fuel with
  | O => out_of_fuel
  | S f =>
      let! sz := get_size in
      if i <=? sz then _sink f i >> _buildheap_from f (i + 1)
      else ret tt
  end.

Definition _buildheap (fuel : nat) : M unit := _buildheap_from fuel 1.

(** ** Public methods *)

Definition insert (fuel : nat) (p : Z) (e : value) : M unit :=
  let! c := get_count in
  let! sz := get_size in
  if c <? sz then
    set_count (c + 1) >>
    (let! c1 := get_count in write c1 (SRec (Rec (Some p) e))) >>
    (let! c2 := get_count in _float fuel c2)
  else throw HeapFull.

Definition removeMax (fuel : nat) : M value :=
  let! c := get_count in
  if c =? 0 then ret VUndefined
  else if c =? 1 then
    set_count (c - 1) >>
    (let! r := read 1 in
     let! e := element_of r in
     write 1 SNull >> ret e)
  else
    _swap 1 c >>
    (let! r := read c in
     let! e := element_of r in
     write c SNull >>
     set_count (c - 1) >>
     _sink fuel 1 >>
     ret e).

Definition count : M nat := get_count.

Fixpoint sort (fuel : nat) : M loc :=
  match fuel with
  | O => out_of_fuel
  | S f =>
      let! c := get_count in
      if 0 <? c then
        _swap 1 c >> set_count (c - 1) >> _sink f 1 >> sort f
      else get_storage
  end.

(** ** Constructors and the static [heapsort] *)

Definition blank : slot := SRec (Rec None VUndefined).

(** [new MaxHeap({size})]: a fresh array [null, blank, ..., blank]. *)
Definition new_empty (sz : nat) (m : gmap loc (list slot)) : state :=
  let l := fresh (dom m) in
  mkState (mkMaxHeap l sz 0) (<[l := SNull :: replicate sz blank]> m).

(** [new MaxHeap()]: the capacity defaults to [DEFAULT_SIZE]. *)
Definition new_default (m : gmap loc (list slot)) : state := new_empty DEFAULT_SIZE m.

(** [new MaxHeap({fromArray})]: the array at reference [a] becomes the
    storage itself, and [size = count = length - 1].  The array is 1-indexed:
    it holds cell 0, so its length is at least 1 and the subtraction stays in
    the natural numbers. *)
Definition new_fromArray (fuel : nat) (a : loc) (m : gmap loc (list slot))
  : res unit * state :=
  let n := length (m !!! a) - 1 in
  _buildheap fuel (mkState (mkMaxHeap a n n) m).

Definition heapsort (fuel : nat) (a : loc) (m : gmap loc (list slot))
  : res unit * state :=
  match new_fromArray fuel a m with
  | (Ok _, s) =>
      match sort fuel s with
      | (Ok _, s') => (Ok tt, s')
      | (Throw e, s') => (Throw e, s')
      | (NoFuel, s') => (NoFuel, s')
      end
  | r => r
  end.

(** A 1-indexed array of records with numeric priorities. *)
Definition mk_array (rs : list (Z * value)) : list slot :=
  SNull :: map (fun pe => SRec (Rec (Some pe.1) pe.2)) rs.

Definition nums (ps : list Z) : list (Z * value) := map (fun p => (p, VNum p)) ps.

Definition prios (a : list slot) : list (option Z) :=
  omap (fun v => match v with SRec r => Some (priority r) | _ => None end) a.

(** * Predicates, measures and drivers used by the theorems *)

(** ** Views of a state, and the predicates of the invariants *)

Definition with_storage (s : state) (a : list slot) : state :=
  mkState (this s) (<[_storage (this s) := a]> (mem s)).

Definition with_count (s : state) (c : nat) : state :=
  mkState (mkMaxHeap (_storage (this s)) (size (this s)) c) (mem s).

(** In-place exchange of two cells of an array. *)
Definition swap_arr (a : list slot) (i j : nat) : list slot :=
  aset (aset a i (aget a j)) j (aget a i).

(** The numeric priority of a cell (0 where there is none). *)
Definition key (v : slot) : Z :=
  match v with
  | SRec (Rec (Some p) _) => p
  | _ => 0%Z
  end.

Definition is_num (v : slot) : Prop :=
  exists p e, v = SRec (Rec (Some p) e).

(** Cells [1..n] of [a] hold records with numeric priorities. *)
Definition live (a : list slot) (n : nat) : Prop :=
  forall j, 1 <= j <= n -> is_num (aget a j).

(** A state as the constructors make it and the methods keep it. *)
Definition wf (s : state) : Prop :=
  length (storage s) = S (size (this s)) /\
  _count (this s) <= size (this s) /\
  live (storage s) (_count (this s)).

(** [v]'s priority is a number not smaller than [w]'s. *)
Definition prio_ge (v w : slot) : Prop :=
  match v, w with
  | SRec (Rec (Some x) _), SRec (Rec (Some y) _) => (y <= x)%Z
  | _, _ => False
  end.

(** The heap-order invariant over the live prefix [1..count]. *)
Definition heap_order (s : state) : Prop :=
  forall i, 1 < i <= _count (this s) ->
    prio_ge (aget (storage s) (_parent i)) (aget (storage s) i).

(** The same on keys, for an array [a] with [n] live cells. *)
Definition heap_ok (a : list slot) (n : nat) : Prop :=
  forall c, 2 <= c <= n -> (key (aget a c) <= key (aget a (c / 2)))%Z.

(** [desc i j]: [j] lies in the subtree rooted at [i]. *)
Inductive desc (i : nat) : nat -> Prop :=
| desc_refl : desc i i
| desc_l j : desc i j -> desc i (2 * j)
| desc_r j : desc i j -> desc i (2 * j + 1).

(** The subtree rooted at [i] is heap-ordered. *)
Definition heap_at (a : list slot) (n : nat) (i : nat) : Prop :=
  forall c, c <= n -> desc i (c / 2) -> (key (aget a c) <= key (aget a (c / 2)))%Z.

(** Heap order everywhere but on the edge into [i]. *)
Definition heap_except (a : list slot) (n : nat) (i : nat) : Prop :=
  (forall c, 2 <= c <= n -> c <> i -> (key (aget a c) <= key (aget a (c / 2)))%Z) /\
  (forall c, 2 <= c <= n -> c / 2 = i -> 2 <= i ->
     (key (aget a c) <= key (aget a (i / 2)))%Z).

(** ** The values of the loop tests *)

(** The tests of the loops read the state and leave it as it is; their
    values are functions of the array and of the count. *)

Definition less_val (a : list slot) (i k : nat) : res bool :=
  match aget a i, aget a k with
  | SRec r, SRec r' => Ok (lt_js (priority r) (priority r'))
  | _, _ => Throw TypeError
  end.

Definition child_greater_val (a : list slot) (n i k : nat) : res bool :=
  if k <=? n then less_val a i k else Ok false.

Definition sink_cond_val (a : list slot) (n i : nat) : res bool :=
  match child_greater_val a n i (2 * i) with
  | Ok false => child_greater_val a n i (2 * i + 1)
  | r => r
  end.

Definition float_cond_val (a : list slot) (i : nat) : res bool :=
  if i / 2 =? 0 then Ok false else less_val a (i / 2) i.

(** ** Runs compared across amounts of fuel *)

Definition le_run {A} (m m' : M A) : Prop :=
  forall s r s', m s = (r, s') -> r <> NoFuel -> m' s = (r, s').

(** ** The weighted sum that every exchange lowers *)

Fixpoint wsum (L : Z) (k : nat) (a : list slot) : Z :=
  match a with
  | [] => 0
  | v :: a' => Z.of_nat k * (key v - L) + wsum L (S k) a'
  end.

Definition lbound (L : Z) (a : list slot) : Prop :=
  Forall (fun v => (L <= key v)%Z) a.

Definition min_key (a : list slot) : Z :=
  foldr (fun v m => Z.min (key v) m) 0%Z a.

(** Fuel that suffices for any run of [_float] or [_sink] on array [a]. *)
Definition fuel_of (a : list slot) : nat :=
  S (Z.to_nat (wsum (min_key a) 0 a)).

(** A run that ends, and does not raise the weighted sum. *)
Definition ends {A} (L : Z) (m : M A) (s : state) : Prop :=
  exists r s', m s = (r, s') /\ r <> NoFuel /\
    lbound L (storage s') /\ (wsum L 0 (storage s') <= wsum L 0 (storage s))%Z.

(** ** Rearrangements of the cells *)

(** The cells of [a'] are those of [a], rearranged inside the region [R]. *)
Definition rearranged (R : nat -> Prop) (n : nat) (a a' : list slot) : Prop :=
  length a' = length a /\ live a' n /\ a' ≡ₚ a /\
  (forall j, ~ R j -> a' !! j = a !! j).

(** ** Settled runs *)

Definition settles {A} (m : nat -> M A) (s : state) (r : res A) (s' : state) : Prop :=
  exists f0, forall f, f0 <= f -> m f s = (r, s').

(** ** The records of the live prefix *)

Definition slot_pair (v : slot) : option (Z * value) :=
  match v with
  | SRec (Rec (Some p) e) => Some (p, e)
  | _ => None
  end.

Definition live_cells (a : list slot) (n : nat) : list slot := take n (drop 1 a).

(** The (priority, element) pairs held in cells [1..count]. *)
Definition contents (s : state) : list (Z * value) :=
  omap slot_pair (live_cells (storage s) (_count (this s))).

(** ** Sequences of calls *)

Inductive op :=
| OInsert (p : Z) (e : value)
| ORemoveMax
| OCount
| OSort.

Inductive retval :=
| RUnit
| RValue (v : value)
| RNat (n : nat)
| RArray (l : loc).

Definition exec (fuel : nat) (o : op) : M retval :=
  match o with
  | OInsert p e => insert fuel p e >> ret RUnit
  | ORemoveMax => let! v := removeMax fuel in ret (RValue v)
  | OCount => let! n := count in ret (RNat n)
  | OSort => let! l := sort fuel in ret (RArray l)
  end.

(** One call: the state before, the method, its outcome, the state after. *)
Record step := mkStep { before : state; call : op; outcome : res retval; after : state }.

Fixpoint run_ops (fuel : nat) (ops : list op) (s : state) : list step * state :=
  match ops with
  | [] => ([], s)
  | o :: os =>
      let rs := exec fuel o s in
      let tr := run_ops fuel os rs.2 in
      (mkStep s o rs.1 rs.2 :: tr.1, tr.2)
  end.

Definition settles_ops (ops : list op) (s : state) (tr : list step) (s' : state) : Prop :=
  exists f0, forall f, f0 <= f -> run_ops f ops s = (tr, s').

(** The invariant of the queue: well-formed and, when [b] is set,
    heap-ordered. *)
Definition Inv (b : bool) (s : state) : Prop :=
  wf s /\ (b = true -> heap_ok (storage s) (_count (this s))).

Definition is_insert (o : op) : bool :=
  match o with OInsert _ _ => true | _ => false end.

(** What a call may do: succeed, or, for an [insert] on a full heap and only
    then, throw the capacity error and leave the state as it was. *)
Definition step_ok (st : step) : Prop :=
  match outcome st with
  | Ok _ => ~ (is_insert (call st) = true /\
               _count (this (before st)) = size (this (before st)))
  | Throw HeapFull =>
      is_insert (call st) = true /\
      _count (this (before st)) = size (this (before st)) /\
      after st = before st
  | Throw TypeError => False
  | NoFuel => False
  end.

(** ** Sequences of [insert] and [removeMax] *)

(** Only [insert] and [removeMax] occur in [ops]. *)
Definition queue_ops (ops : list op) : bool :=
  forallb (fun o => match o with OInsert _ _ | ORemoveMax => true | _ => false end) ops.

(** Starting with [n] records in a heap of capacity [c], no [insert] of [ops]
    is attempted on a full heap. *)
Fixpoint never_full (c n : nat) (ops : list op) : bool :=
  match ops with
  | [] => true
  | OInsert _ _ :: os => (n <? c) && never_full c (n + 1) os
  | ORemoveMax :: os => never_full c (n - 1) os
  | _ :: os => never_full c n os
  end.

Definition ins (pe : Z * value) : op := OInsert pe.1 pe.2.

(** ** The array with priorities 5, 4, 3, 1, 9 *)

Definition bad_array : list slot := mk_array (nums [5; 4; 3; 1; 9]%Z).

Definition bad_mem : gmap loc (list slot) := {[ 0 := bad_array ]}.

(** ** Sink-down in the words of the specification, and a heap to tell them apart *)

(** Sink-down as the specification words it: while a child in range is
    strictly greater than the node, exchange the node with the child of
    larger priority (the left one unless the right one is greater than it),
    and go on from that child. *)
Fixpoint sink_spec (fuel : nat) (i : nat) : M unit :=
  match fuel with
  | O => out_of_fuel
  | S f =>
      let! c := _sink_cond i in
      if c then
        let! n := get_count in
        let! right_larger :=
          (if _right i <=? n then _less (_left i) (_right i) else ret false) in
        let k := if right_larger then _right i else _left i in
        _swap i k >> sink_spec f k
      else ret tt
  end.

(** The heap holding 4, 2, 3, 1 in cells 1..4, as four inserts make it. *)
Definition heap_4231 : state :=
  (run_ops 12 (ins <$> nums [4; 2; 3; 1]%Z) (new_empty 4 ∅)).2.

(** The state in which [removeMax] on [heap_4231] calls [_sink 1]: the last
    record moved to the root, the count lowered to 3. *)
Definition heap_4231_sinking : state :=
  with_count
    (with_storage heap_4231 (aset (swap_arr (storage heap_4231) 1 4) 4 SNull)) 3.

(** ** What a method leaves alone *)

(** From [s] to [s'] the object keeps its storage reference and its size,
    and every array other than the storage is as it was. *)
Definition frame (s s' : state) : Prop :=
  _storage (this s') = _storage (this s) /\
  size (this s') = size (this s) /\
  (forall l, l <> _storage (this s) -> mem s' !! l = mem s !! l).

Definition keeps_frame {A} (m : M A) : Prop :=
  forall s r s', m s = (r, s') -> frame s s'.

(** ** Slices of the storage, and their order *)

(** The [k] cells of [a] from index [i] on. *)
Definition cells (a : list slot) (i k : nat) : list slot := take k (drop i a).

(** [v]'s key is at most [w]'s. *)
Definition kle (v w : slot) : Prop := (key v <= key w)%Z.

(** The (priority, element) pairs held in cells [1..n] of [a]. *)
Definition records_of (a : list slot) (n : nat) : list (Z * value) :=
  omap slot_pair (live_cells a n).

(** Pairs in ascending order of priority. *)
Definition ascending (l : list (Z * value)) : Prop :=
  StronglySorted (fun x y : Z * value => (x.1 <= y.1)%Z) l.

(** ** The count, call by call *)

(** The count after one call, from the capacity [c] and the count [n]
    before it. *)
Definition count_step (c n : nat) (o : op) : nat :=
  match o with
  | OInsert _ _ => if n <? c then n + 1 else n
  | ORemoveMax => n - 1
  | OCount => n
  | OSort => 0
  end.

Definition count_model (c n : nat) (ops : list op) : nat :=
  foldl (count_step c) n ops.

(** ** Heaps for the witnesses *)

(** The heap holding 4, 2 in cells 1..2, with room for two more records. *)
Definition heap_42 : state :=
  (run_ops 12 (ins <$> nums [4; 2]%Z) (new_empty 4 ∅)).2.

(** The heap built from the array [[null, null]], whose cell 1 holds no
    record. *)
Definition heap_with_hole : state :=
  (new_fromArray 3 0 {[ 0 := [SNull; SNull] ]}).2.

(** * Lemmas and theorems *)

(** ** Arrays *)

Lemma aget_lookup a i v : a !! i = Some v -> aget a i = v.
Proof. unfold aget. by intros ->. Qed.

Lemma aget_is_rec a i r : aget a i = SRec r -> a !! i = Some (SRec r).
Proof. unfold aget. destruct (a !! i); simpl; congruence. Qed.

Lemma is_num_lt a i : is_num (aget a i) -> i < length a.
Proof.
  intros (p & e & H). apply aget_is_rec in H. by eapply lookup_lt_Some.
Qed.

Lemma aset_lt a i v : i < length a -> aset a i v = <[i:=v]> a.
Proof. intros H. unfold aset. by rewrite decide_True. Qed.

Lemma length_aset_lt a i v : i < length a -> length (aset a i v) = length a.
Proof. intros H. rewrite aset_lt by done. by rewrite length_insert. Qed.

Lemma aget_insert a i j v :
  i < length a -> aget (<[i:=v]> a) j = if decide (j = i) then v else aget a j.
Proof.
  intros H. unfold aget. destruct (decide (j = i)) as [->|Hne].
  - by rewrite list_lookup_insert_eq.
  - by rewrite list_lookup_insert_ne.
Qed.

Lemma swap_arr_eq a i j :
  i < length a -> j < length a ->
  swap_arr a i j = <[j := aget a i]> (<[i := aget a j]> a).
Proof.
  intros Hi Hj. unfold swap_arr.
  rewrite (aset_lt a i) by done. rewrite aset_lt; [done|]. by rewrite length_insert.
Qed.

Lemma length_swap_arr a i j :
  i < length a -> j < length a -> length (swap_arr a i j) = length a.
Proof. intros Hi Hj. rewrite swap_arr_eq by done. by rewrite !length_insert. Qed.

Lemma aget_swap_arr a i j k :
  i < length a -> j < length a ->
  aget (swap_arr a i j) k =
    if decide (k = j) then aget a i else if decide (k = i) then aget a j else aget a k.
Proof.
  intros Hi Hj. rewrite swap_arr_eq by done.
  rewrite aget_insert by (by rewrite length_insert).
  destruct (decide (k = j)); [done|]. by rewrite aget_insert.
Qed.

Lemma lookup_swap_arr_ne a i j k :
  i < length a -> j < length a -> k <> i -> k <> j ->
  swap_arr a i j !! k = a !! k.
Proof.
  intros Hi Hj Hki Hkj. rewrite swap_arr_eq by done.
  rewrite list_lookup_insert_ne by done. by rewrite list_lookup_insert_ne.
Qed.

Lemma swap_arr_perm a i j :
  i < length a -> j < length a -> swap_arr a i j ≡ₚ a.
Proof.
  intros Hi Hj. apply Permutation_inj. split.
  { by apply length_swap_arr. }
  exists (fun k => if decide (k = j) then i else if decide (k = i) then j else k).
  split.
  - intros x y. repeat case_decide; intros; subst; congruence.
  - intros k. rewrite swap_arr_eq by done.
    destruct (decide (k = j)) as [->|Hkj].
    + rewrite list_lookup_insert_eq by (by rewrite length_insert).
      unfold aget. destruct (lookup_lt_is_Some_2 a i Hi) as [x ->]. done.
    + rewrite list_lookup_insert_ne by done.
      destruct (decide (k = i)) as [->|Hki].
      * rewrite list_lookup_insert_eq by done.
        unfold aget. destruct (lookup_lt_is_Some_2 a j Hj) as [x ->]. done.
      * by rewrite list_lookup_insert_ne.
Qed.

(** ** States *)

Lemma storage_with_storage s a : storage (with_storage s a) = a.
Proof. unfold storage, with_storage. simpl. by rewrite lookup_total_insert_eq. Qed.

Lemma with_storage_twice s a b :
  with_storage (with_storage s a) b = with_storage s b.
Proof. unfold with_storage. simpl. by rewrite insert_insert_eq. Qed.

Lemma storage_with_count s c : storage (with_count s c) = storage s.
Proof. done. Qed.

(** ** Running the private methods *)

Lemma run_bind {A B} (m : M A) (k : A -> M B) s :
  bind m k s =
    match m s with
    | (Ok a, s') => k a s'
    | (Throw e, s') => (Throw e, s')
    | (NoFuel, s') => (NoFuel, s')
    end.
Proof. done. Qed.

Lemma run_swap i j s :
  _swap i j s = (Ok tt, with_storage s (swap_arr (storage s) i j)).
Proof.
  unfold _swap, bind, read, write. simpl.
  f_equal. unfold with_storage, swap_arr. simpl. f_equal.
  unfold storage at 1. simpl. rewrite lookup_total_insert_eq.
  by rewrite insert_insert_eq.
Qed.

Lemma run_prio i s :
  prio i s =
    match aget (storage s) i with
    | SRec r => (Ok (priority r), s)
    | _ => (Throw TypeError, s)
    end.
Proof. unfold prio, bind, read. simpl. by destruct (aget (storage s) i). Qed.

Lemma run_prio_num i s :
  is_num (aget (storage s) i) -> prio i s = (Ok (Some (key (aget (storage s) i))), s).
Proof. intros (p & e & H). rewrite run_prio, H. done. Qed.

Lemma run_less i k s : _less i k s = (less_val (storage s) i k, s).
Proof.
  unfold _less, less_val. rewrite run_bind, run_prio.
  destruct (aget (storage s) i); try done.
  rewrite run_bind, run_prio. by destruct (aget (storage s) k).
Qed.

Lemma run_child_greater i k s :
  _child_greater i k s = (child_greater_val (storage s) (_count (this s)) i k, s).
Proof.
  unfold _child_greater, child_greater_val, get_count. rewrite run_bind.
  destruct (k <=? _count (this s)); [|done]. apply run_less.
Qed.

Lemma run_sink_cond i s :
  _sink_cond i s = (sink_cond_val (storage s) (_count (this s)) i, s).
Proof.
  unfold _sink_cond, sink_cond_val, _left, _right.
  rewrite run_bind, run_child_greater.
  destruct (child_greater_val _ _ i (2 * i)) as [[]| |]; try done.
  apply run_child_greater.
Qed.

Lemma run_float_cond i s :
  _float_cond i s = (float_cond_val (storage s) i, s).
Proof.
  unfold _float_cond, float_cond_val, _parent.
  destruct (i / 2 =? 0); [done|].
  unfold less_val. rewrite run_bind, run_prio.
  destruct (aget (storage s) i) eqn:Ei;
    rewrite ?run_bind, ?run_prio; destruct (aget (storage s) (i / 2)); done.
Qed.

Lemma less_val_fuel a i k : less_val a i k <> NoFuel.
Proof. unfold less_val. by repeat case_match. Qed.

Lemma child_greater_val_fuel a n i k : child_greater_val a n i k <> NoFuel.
Proof. unfold child_greater_val. case_match; [apply less_val_fuel|done]. Qed.

Lemma sink_cond_val_fuel a n i : sink_cond_val a n i <> NoFuel.
Proof.
  unfold sink_cond_val.
  destruct (child_greater_val a n i (2 * i)) as [[]| |] eqn:E; try done.
  - apply child_greater_val_fuel.
  - by apply child_greater_val_fuel in E.
Qed.

Lemma float_cond_val_fuel a i : float_cond_val a i <> NoFuel.
Proof. unfold float_cond_val. case_match; [done|apply less_val_fuel]. Qed.

Lemma lt_js_true x y : lt_js x y = true -> exists p q, x = Some p /\ y = Some q /\ (p < q)%Z.
Proof.
  destruct x as [p|], y as [q|]; simpl; try done.
  intros H%bool_decide_eq_true. eauto.
Qed.

Lemma less_val_true a i k :
  less_val a i k = Ok true ->
  (key (aget a i) < key (aget a k))%Z /\ i < length a /\ k < length a.
Proof.
  unfold less_val. destruct (aget a i) as [| |[x e]] eqn:Ei; try done.
  destruct (aget a k) as [| |[y e']] eqn:Ek; try done.
  simpl. intros [= (p & q & -> & -> & Hpq)%lt_js_true].
  split; [done|]. split.
  - apply is_num_lt. rewrite Ei. by eexists _, _.
  - apply is_num_lt. rewrite Ek. by eexists _, _.
Qed.

Lemma less_val_num a i k :
  is_num (aget a i) -> is_num (aget a k) ->
  less_val a i k = Ok (bool_decide (key (aget a i) < key (aget a k))%Z).
Proof. intros (p & e & Hi) (q & e' & Hk). unfold less_val. by rewrite Hi, Hk. Qed.

(** One turn of each loop. *)

Lemma sink_unfold f i s :
  _sink (S f) i s =
    match sink_cond_val (storage s) (_count (this s)) i with
    | Ok true =>
        match less_val (storage s) i (2 * i) with
        | Ok true =>
            (_sink f (2 * i) >> _sink f i)
              (with_storage s (swap_arr (storage s) i (2 * i)))
        | Ok false =>
            match less_val (storage s) i (2 * i + 1) with
            | Ok true =>
                (_sink f (2 * i + 1) >> _sink f i)
                  (with_storage s (swap_arr (storage s) i (2 * i + 1)))
            | Ok false => (Ok tt, s)
            | Throw e => (Throw e, s)
            | NoFuel => (NoFuel, s)
            end
        | Throw e => (Throw e, s)
        | NoFuel => (NoFuel, s)
        end
    | Ok false => (Ok tt, s)
    | Throw e => (Throw e, s)
    | NoFuel => (NoFuel, s)
    end.
Proof.
  cbn [_sink]. rewrite run_bind, run_sink_cond.
  destruct (sink_cond_val _ _ i) as [[]| |]; try done.
  unfold _left, _right.
  rewrite run_bind, run_less.
  destruct (less_val _ i (2 * i)) as [[]| |]; try done.
  - by rewrite run_bind, run_swap.
  - rewrite run_bind, run_less.
    destruct (less_val _ i (2 * i + 1)) as [[]| |]; try done.
    by rewrite run_bind, run_swap.
Qed.

Lemma float_unfold f i s :
  _float (S f) i s =
    match float_cond_val (storage s) i with
    | Ok true =>
        (_float f (i / 2) >> _float f i)
          (with_storage s (swap_arr (storage s) i (i / 2)))
    | Ok false => (Ok tt, s)
    | Throw e => (Throw e, s)
    | NoFuel => (NoFuel, s)
    end.
Proof.
  cbn [_float]. rewrite run_bind, run_float_cond.
  destruct (float_cond_val _ i) as [[]| |]; try done.
  unfold _parent. by rewrite run_bind, run_swap.
Qed.

Lemma half_spec i : i = 2 * (i / 2) + i mod 2 /\ i mod 2 < 2.
Proof. split; [apply Nat.div_mod_eq|apply Nat.mod_upper_bound; lia]. Qed.

Lemma half_double i : (2 * i) / 2 = i.
Proof. pose proof (half_spec (2 * i)). lia. Qed.

Lemma half_double1 i : (2 * i + 1) / 2 = i.
Proof. pose proof (half_spec (2 * i + 1)). lia. Qed.

(** ** More fuel changes nothing *)

Lemma le_run_refl {A} (m : M A) : le_run m m.
Proof. by intros s r s' H _. Qed.

Lemma le_run_bind {A B} (m m' : M A) (k k' : A -> M B) :
  le_run m m' -> (forall a, le_run (k a) (k' a)) ->
  le_run (bind m k) (bind m' k').
Proof.
  intros Hm Hk s r s'. unfold bind.
  destruct (m s) as [[a|e|] s1] eqn:E.
  - rewrite (Hm _ _ _ E) by done. apply Hk.
  - rewrite (Hm _ _ _ E) by done. done.
  - intros [= <- <-]. done.
Qed.

Lemma le_run_out {A} (m : M A) : le_run out_of_fuel m.
Proof. intros s r s' [= <- <-]. done. Qed.

Lemma sink_mono f f' i : f <= f' -> le_run (_sink f i) (_sink f' i).
Proof.
  revert f' i. induction f as [|f IH]; intros f' i Hf; [apply le_run_out|].
  destruct f' as [|f']; [lia|].
  assert (Hseq : forall k, le_run (_sink f k >> _sink f i) (_sink f' k >> _sink f' i)).
  { intros k. apply le_run_bind; [|intros _]; apply IH; lia. }
  intros s r s'. rewrite !sink_unfold.
  repeat case_match; try done; apply Hseq.
Qed.

Lemma float_mono f f' i : f <= f' -> le_run (_float f i) (_float f' i).
Proof.
  revert f' i. induction f as [|f IH]; intros f' i Hf; [apply le_run_out|].
  destruct f' as [|f']; [lia|].
  intros s r s'. rewrite !float_unfold.
  repeat case_match; try done.
  apply le_run_bind; [|intros _]; apply IH; lia.
Qed.

(** ** Enough fuel exists: every exchange lowers a weighted sum *)

Lemma lbound_min_key a : lbound (min_key a) a.
Proof.
  unfold lbound. induction a as [|v a IH]; simpl; [constructor|].
  constructor; [lia|].
  eapply Forall_impl; [exact IH|]. simpl. intros; lia.
Qed.

Lemma wsum_nonneg L k a : lbound L a -> (0 <= wsum L k a)%Z.
Proof.
  intros H. revert k. induction H as [|v a Hv _ IH]; intros k; simpl; [lia|].
  specialize (IH (S k)). nia.
Qed.

Lemma wsum_insert L k a i v w :
  a !! i = Some v ->
  wsum L k (<[i:=w]> a) = (wsum L k a + Z.of_nat (k + i) * (key w - key v))%Z.
Proof.
  revert k i. induction a as [|x a IH]; intros k i; [done|].
  destruct i as [|i]; simpl.
  - intros [= ->]. replace (k + 0) with k by lia. lia.
  - intros H. rewrite (IH (S k) i H).
    replace (S k + i) with (k + S i) by lia. lia.
Qed.

Lemma wsum_swap L a i j :
  i < length a -> j < length a ->
  wsum L 0 (swap_arr a i j) =
    (wsum L 0 a - (Z.of_nat j - Z.of_nat i) * (key (aget a j) - key (aget a i)))%Z.
Proof.
  intros Hi Hj. rewrite swap_arr_eq by done.
  destruct (lookup_lt_is_Some_2 a i Hi) as [x Hx].
  destruct (lookup_lt_is_Some_2 a j Hj) as [y Hy].
  rewrite (aget_lookup _ _ _ Hx), (aget_lookup _ _ _ Hy).
  destruct (decide (i = j)) as [->|Hne].
  - assert (x = y) as -> by congruence.
    rewrite (wsum_insert L 0 _ j y y)
      by (by rewrite list_lookup_insert_eq).
    rewrite (wsum_insert L 0 a j y y) by done. lia.
  - rewrite (wsum_insert L 0 _ j y x)
      by (by rewrite list_lookup_insert_ne).
    rewrite (wsum_insert L 0 a i x y) by done. simpl. lia.
Qed.

Lemma lbound_swap L a i j :
  i < length a -> j < length a -> lbound L a -> lbound L (swap_arr a i j).
Proof.
  intros Hi Hj H. rewrite swap_arr_eq by done.
  destruct (lookup_lt_is_Some_2 a i Hi) as [x Hx].
  destruct (lookup_lt_is_Some_2 a j Hj) as [y Hy].
  rewrite (aget_lookup _ _ _ Hx), (aget_lookup _ _ _ Hy).
  unfold lbound in *.
  apply Forall_insert; [apply Forall_insert; [done|]|].
  - by eapply (Forall_lookup_1 _ _ _ _ H), Hy.
  - by eapply (Forall_lookup_1 _ _ _ _ H), Hx.
Qed.

Lemma ends_now {A} L (r : res A) s :
  r <> NoFuel -> lbound L (storage s) ->
  exists r' s', (r, s) = (r', s') /\ r' <> NoFuel /\
    lbound L (storage s') /\ (wsum L 0 (storage s') <= wsum L 0 (storage s))%Z.
Proof. intros. exists r, s. repeat split; try done. Qed.

Lemma sink_ends f : forall L i s,
  lbound L (storage s) -> (wsum L 0 (storage s) < Z.of_nat f)%Z ->
  ends L (_sink f i) s.
Proof.
  induction f as [|f IH]; intros L i s Hl Hw.
  { pose proof (wsum_nonneg L 0 _ Hl). lia. }
  assert (Hstep : forall k, less_val (storage s) i k = Ok true -> k <> i -> i <= k ->
            exists r s',
              (_sink f k >> _sink f i) (with_storage s (swap_arr (storage s) i k)) = (r, s') /\
              r <> NoFuel /\ lbound L (storage s') /\
              (wsum L 0 (storage s') <= wsum L 0 (storage s))%Z).
  { intros k (Hk & Hi & Hkl)%less_val_true Hne Hik.
    assert (Hw1 : (wsum L 0 (swap_arr (storage s) i k) < wsum L 0 (storage s))%Z).
    { rewrite wsum_swap by done. nia. }
    destruct (IH L k (with_storage s (swap_arr (storage s) i k)))
      as (r & s' & E & Hr & Hl' & Hw').
    { rewrite storage_with_storage. by apply lbound_swap. }
    { rewrite storage_with_storage. lia. }
    rewrite storage_with_storage in Hw'.
    rewrite run_bind, E.
    destruct r as [[]|e|]; [|exists (Throw e), s'; repeat split; try done; lia|done].
    destruct (IH L i s' Hl') as (r2 & s2 & E2 & Hr2 & Hl2 & Hw2); [lia|].
    exists r2, s2. repeat split; try done. lia. }
  unfold ends. rewrite sink_unfold.
  destruct (sink_cond_val _ _ i) as [[]| |] eqn:Ec;
    [| by apply ends_now | by apply ends_now | by apply sink_cond_val_fuel in Ec].
  destruct (less_val _ i (2 * i)) as [[]| |] eqn:El;
    [| | by apply ends_now | by apply less_val_fuel in El].
  - apply Hstep; [done| |lia].
    intros Heq. rewrite Heq in El. apply less_val_true in El. lia.
  - destruct (less_val _ i (2 * i + 1)) as [[]| |] eqn:Er;
      [| by apply ends_now | by apply ends_now | by apply less_val_fuel in Er].
    apply Hstep; [done|lia|lia].
Qed.

Lemma float_ends f : forall L i s,
  lbound L (storage s) -> (wsum L 0 (storage s) < Z.of_nat f)%Z ->
  ends L (_float f i) s.
Proof.
  induction f as [|f IH]; intros L i s Hl Hw.
  { pose proof (wsum_nonneg L 0 _ Hl). lia. }
  unfold ends. rewrite float_unfold.
  destruct (float_cond_val _ i) as [[]| |] eqn:Ec;
    [| by apply ends_now | by apply ends_now | by apply float_cond_val_fuel in Ec].
  unfold float_cond_val in Ec. destruct (i / 2 =? 0) eqn:Ep; [done|].
  apply Nat.eqb_neq in Ep.
  apply less_val_true in Ec as (Hk & Hpl & Hil).
  assert (i / 2 < i) by (pose proof (half_spec i); lia).
  assert (Hw1 : (wsum L 0 (swap_arr (storage s) i (i / 2)) < wsum L 0 (storage s))%Z).
  { rewrite wsum_swap by done. nia. }
  destruct (IH L (i / 2) (with_storage s (swap_arr (storage s) i (i / 2))))
    as (r & s' & E & Hr & Hl' & Hw').
  { rewrite storage_with_storage. by apply lbound_swap. }
  { rewrite storage_with_storage. lia. }
  rewrite storage_with_storage in Hw'.
  rewrite run_bind, E.
  destruct r as [[]|e|]; [|exists (Throw e), s'; repeat split; try done; lia|done].
  destruct (IH L i s' Hl') as (r2 & s2 & E2 & Hr2 & Hl2 & Hw2); [lia|].
  exists r2, s2. repeat split; try done. lia.
Qed.

(** With [fuel_of] the array, or more, the loops end; with more fuel the
    outcome is the same one. *)
Lemma sink_fuel i s f :
  fuel_of (storage s) <= f ->
  _sink f i s = _sink (fuel_of (storage s)) i s /\ (_sink f i s).1 <> NoFuel.
Proof.
  intros Hf.
  destruct (sink_ends (fuel_of (storage s)) (min_key (storage s)) i s)
    as (r & s' & E & Hr & _).
  { apply lbound_min_key. }
  { unfold fuel_of. pose proof (wsum_nonneg _ 0 _ (lbound_min_key (storage s))). lia. }
  rewrite (sink_mono _ _ i Hf _ _ _ E Hr). by rewrite E.
Qed.

Lemma float_fuel i s f :
  fuel_of (storage s) <= f ->
  _float f i s = _float (fuel_of (storage s)) i s /\ (_float f i s).1 <> NoFuel.
Proof.
  intros Hf.
  destruct (float_ends (fuel_of (storage s)) (min_key (storage s)) i s)
    as (r & s' & E & Hr & _).
  { apply lbound_min_key. }
  { unfold fuel_of. pose proof (wsum_nonneg _ 0 _ (lbound_min_key (storage s))). lia. }
  rewrite (float_mono _ _ i Hf _ _ _ E Hr). by rewrite E.
Qed.

(** ** Subtrees *)

Lemma desc_le i j : desc i j -> i <= j.
Proof. induction 1; lia. Qed.

Lemma desc_child_l i j : desc (2 * i) j -> desc i j.
Proof. induction 1; [apply desc_l|apply desc_l|apply desc_r]; auto using desc. Qed.

Lemma desc_child_r i j : desc (2 * i + 1) j -> desc i j.
Proof. induction 1; [apply desc_r|apply desc_l|apply desc_r]; auto using desc. Qed.

Lemma desc_split i j : desc i j -> j = i \/ desc (2 * i) j \/ desc (2 * i + 1) j.
Proof.
  induction 1 as [|j H IH|j H IH]; [by left|right..].
  - destruct IH as [->|[?|?]]; [left; constructor|left|right]; by apply desc_l.
  - destruct IH as [->|[?|?]]; [right; constructor|left|right]; by apply desc_r.
Qed.

Lemma desc_disjoint i j : 1 <= i -> desc (2 * i) j -> desc (2 * i + 1) j -> False.
Proof.
  intros Hi. induction 1 as [|j H IH|j H IH]; intros H2.
  - apply desc_le in H2. lia.
  - inversion H2 as [E|k Hk E|k Hk E]; [lia| |lia].
    assert (k = j) as -> by lia. auto.
  - inversion H2 as [E|k Hk E|k Hk E]; [|lia|].
    + assert (j = i) as -> by lia. apply desc_le in H. lia.
    + assert (k = j) as -> by lia. auto.
Qed.

Lemma desc_of_parent i c : desc i (c / 2) -> desc i c.
Proof.
  intros H. pose proof (half_spec c) as [E Hm].
  remember (c / 2) as h eqn:Eh. clear Eh.
  destruct (decide (c mod 2 = 0)).
  - assert (c = 2 * h) as -> by lia. by apply desc_l.
  - assert (c = 2 * h + 1) as -> by lia. by apply desc_r.
Qed.

Lemma desc_one j : 1 <= j -> desc 1 j.
Proof.
  induction (lt_wf j) as [j _ IH]. intros Hj.
  destruct (decide (j = 1)) as [->|Hne]; [constructor|].
  apply desc_of_parent. pose proof (half_spec j).
  apply IH; lia.
Qed.

(** ** What [_sink] and [_float] do on live cells *)

Lemma sink_step f i s :
  live (storage s) (_count (this s)) -> 1 <= i ->
  _sink (S f) i s =
    if decide (2 * i <= _count (this s) /\
               (key (aget (storage s) i) < key (aget (storage s) (2 * i)))%Z)
    then (_sink f (2 * i) >> _sink f i)
           (with_storage s (swap_arr (storage s) i (2 * i)))
    else if decide (2 * i + 1 <= _count (this s) /\
               (key (aget (storage s) i) < key (aget (storage s) (2 * i + 1)))%Z)
    then (_sink f (2 * i + 1) >> _sink f i)
           (with_storage s (swap_arr (storage s) i (2 * i + 1)))
    else (Ok tt, s).
Proof.
  intros Hl Hi. rewrite sink_unfold.
  set (a := storage s) in *. set (n := _count (this s)) in *.
  unfold sink_cond_val, child_greater_val.
  destruct (2 * i <=? n) eqn:E1; [apply Nat.leb_le in E1|apply Nat.leb_gt in E1].
  - assert (Hli : less_val a i (2 * i) =
              Ok (bool_decide (key (aget a i) < key (aget a (2 * i)))%Z)).
    { apply less_val_num; apply Hl; lia. }
    rewrite Hli.
    destruct (bool_decide_reflect (key (aget a i) < key (aget a (2 * i)))%Z) as [Hlt|Hge].
    { by rewrite decide_True. }
    rewrite (decide_False (P := _ /\ (_ < key (aget a (2 * i)))%Z)) by tauto.
    destruct (2 * i + 1 <=? n) eqn:E2; [apply Nat.leb_le in E2|apply Nat.leb_gt in E2].
    + assert (Hri : less_val a i (2 * i + 1) =
                Ok (bool_decide (key (aget a i) < key (aget a (2 * i + 1)))%Z)).
      { apply less_val_num; apply Hl; lia. }
      rewrite Hri.
      destruct (bool_decide_reflect (key (aget a i) < key (aget a (2 * i + 1)))%Z).
      * by rewrite decide_True.
      * by rewrite decide_False by tauto.
    + by rewrite decide_False by lia.
  - rewrite (decide_False (P := 2 * i <= n /\ _)) by lia.
    destruct (2 * i + 1 <=? n) eqn:E2; [apply Nat.leb_le in E2; lia|].
    apply Nat.leb_gt in E2. by rewrite decide_False by lia.
Qed.

Lemma float_step f i s :
  live (storage s) (_count (this s)) -> 1 <= i <= _count (this s) ->
  _float (S f) i s =
    if decide (2 <= i /\
               (key (aget (storage s) (i / 2)) < key (aget (storage s) i))%Z)
    then (_float f (i / 2) >> _float f i)
           (with_storage s (swap_arr (storage s) i (i / 2)))
    else (Ok tt, s).
Proof.
  intros Hl Hi. rewrite float_unfold. unfold float_cond_val.
  pose proof (half_spec i) as [E Hm].
  destruct (i / 2 =? 0) eqn:Ep; [apply Nat.eqb_eq in Ep|apply Nat.eqb_neq in Ep].
  { by rewrite decide_False by lia. }
  rewrite less_val_num by (apply Hl; lia).
  destruct (bool_decide_reflect
              (key (aget (storage s) (i / 2)) < key (aget (storage s) i))%Z).
  - by rewrite decide_True by (split; [lia|done]).
  - by rewrite decide_False by tauto.
Qed.

Lemma rearranged_refl R n a : live a n -> rearranged R n a a.
Proof. by intros H. Qed.

Lemma rearranged_trans R n a b c :
  rearranged R n a b -> rearranged R n b c -> rearranged R n a c.
Proof.
  intros (L1 & V1 & P1 & F1) (L2 & V2 & P2 & F2). repeat split.
  - congruence.
  - done.
  - by rewrite P2.
  - intros j Hj. rewrite F2 by done. by apply F1.
Qed.

Lemma rearranged_weaken (R R' : nat -> Prop) n a b :
  (forall j, R j -> R' j) -> rearranged R n a b -> rearranged R' n a b.
Proof.
  intros HR (L1 & V1 & P1 & F1). repeat split; try done.
  intros j Hj. apply F1. auto.
Qed.

Lemma live_swap a n i k :
  live a n -> 1 <= i <= n -> 1 <= k <= n -> live (swap_arr a i k) n.
Proof.
  intros Hl Hi Hk j Hj.
  rewrite aget_swap_arr by (apply is_num_lt, Hl; lia).
  repeat case_decide; apply Hl; lia.
Qed.

Lemma rearranged_swap (R : nat -> Prop) n a i k :
  live a n -> 1 <= i <= n -> 1 <= k <= n -> R i -> R k ->
  rearranged R n a (swap_arr a i k).
Proof.
  intros Hl Hi Hk Ri Rk.
  assert (i < length a) by (apply is_num_lt, Hl; lia).
  assert (k < length a) by (apply is_num_lt, Hl; lia).
  repeat split.
  - by apply length_swap_arr.
  - by apply live_swap.
  - by apply swap_arr_perm.
  - intros j Hj. apply lookup_swap_arr_ne; try done; by intros ->.
Qed.

Lemma aget_frame (a a' : list slot) j : a' !! j = a !! j -> aget a' j = aget a j.
Proof. unfold aget. by intros ->. Qed.

(** [_sink i] ends without error on live cells, rearranges the cells of the
    subtree of [i], and on return no child of [i] is greater than [i]. *)
Lemma sink_effect f : forall i s r s',
  1 <= i -> live (storage s) (_count (this s)) ->
  _sink f i s = (r, s') ->
  r = NoFuel \/
  (r = Ok tt /\ this s' = this s /\
   rearranged (fun j => desc i j /\ j <= _count (this s)) (_count (this s))
     (storage s) (storage s') /\
   sink_cond_val (storage s') (_count (this s)) i = Ok false).
Proof.
  induction f as [|f IH]; intros i s r s' Hi Hl E.
  { left. by inversion E. }
  rewrite sink_step in E by done.
  set (a := storage s) in *. set (n := _count (this s)) in *.
  assert (Hstep : forall k, (k = 2 * i \/ k = 2 * i + 1) -> k <= n ->
    (_sink f k >> _sink f i) (with_storage s (swap_arr a i k)) = (r, s') ->
    r = NoFuel \/
    (r = Ok tt /\ this s' = this s /\
     rearranged (fun j => desc i j /\ j <= n) n a (storage s') /\
     sink_cond_val (storage s') n i = Ok false)).
  { intros k Hk Hkn E'. rewrite run_bind in E'.
    assert (Hr1 : rearranged (fun j => desc i j /\ j <= n) n a (swap_arr a i k)).
    { apply rearranged_swap; try done; try lia.
      - split; [constructor|lia].
      - split; [|lia]. destruct Hk as [-> | ->]; auto using desc. }
    destruct (_sink f k (with_storage s (swap_arr a i k))) as [r1 s1] eqn:E1.
    apply IH in E1; [|lia|rewrite storage_with_storage; apply Hr1].
    rewrite storage_with_storage in E1. cbn [this with_storage] in E1. fold n in E1.
    destruct E1 as [->|(-> & Ht & Hr2 & _)]; [left; by inversion E'|].
    apply IH in E'; [|done|rewrite Ht; apply Hr2].
    rewrite Ht in E'. cbn [this with_storage] in E'. fold n in E'.
    destruct E' as [->|(-> & Ht' & Hr3 & Hc)]; [by left|right].
    refine (conj eq_refl (conj Ht' (conj _ Hc))).
    eapply rearranged_trans; [exact Hr1|].
    eapply rearranged_trans; [|exact Hr3].
    eapply rearranged_weaken; [|exact Hr2].
    intros j [Hd Hjn]. split; [|done].
    destruct Hk as [-> | ->]; [by apply desc_child_l|by apply desc_child_r]. }
  destruct (decide (2 * i <= n /\ _)) as [[H1 H2]|H1].
  { apply (Hstep (2 * i)); auto. }
  destruct (decide (2 * i + 1 <= n /\ _)) as [[H3 H4]|H3].
  { apply (Hstep (2 * i + 1)); auto. }
  inversion E; subst r s'. right.
  refine (conj eq_refl (conj eq_refl (conj (rearranged_refl _ _ _ Hl) _))).
  unfold sink_cond_val, child_greater_val. fold a n.
  destruct (2 * i <=? n) eqn:E1; [apply Nat.leb_le in E1|apply Nat.leb_gt in E1].
  - rewrite less_val_num by (apply Hl; fold n; lia).
    rewrite bool_decide_eq_false_2 by tauto.
    destruct (2 * i + 1 <=? n) eqn:E2; [apply Nat.leb_le in E2|done].
    rewrite less_val_num by (apply Hl; fold n; lia).
    by rewrite bool_decide_eq_false_2 by tauto.
  - destruct (2 * i + 1 <=? n) eqn:E2; [apply Nat.leb_le in E2; lia|done].
Qed.

(** [_float i] ends without error on live cells, rearranges the cells on the
    path from [i] to the root, and on return [i] is not greater than its
    parent. *)
Lemma float_effect f : forall i s r s',
  1 <= i <= _count (this s) -> live (storage s) (_count (this s)) ->
  _float f i s = (r, s') ->
  r = NoFuel \/
  (r = Ok tt /\ this s' = this s /\
   rearranged (fun j => 1 <= j /\ desc j i) (_count (this s))
     (storage s) (storage s') /\
   float_cond_val (storage s') i = Ok false).
Proof.
  induction f as [|f IH]; intros i s r s' Hi Hl E.
  { left. by inversion E. }
  rewrite float_step in E by done.
  set (a := storage s) in *. set (n := _count (this s)) in *.
  pose proof (half_spec i) as [Ei Hm].
  destruct (decide (2 <= i /\ _)) as [[H1 H2]|H1].
  - rewrite run_bind in E.
    assert (Hr1 : rearranged (fun j => 1 <= j /\ desc j i) n a (swap_arr a i (i / 2))).
    { apply rearranged_swap; try done; try lia.
      - split; [lia|constructor].
      - split; [lia|]. apply desc_of_parent. constructor. }
    destruct (_float f (i / 2) (with_storage s (swap_arr a i (i / 2)))) as [r1 s1] eqn:E1.
    apply IH in E1;
      [|cbn [this with_storage]; fold n; lia|rewrite storage_with_storage; apply Hr1].
    rewrite storage_with_storage in E1. cbn [this with_storage] in E1. fold n in E1.
    destruct E1 as [->|(-> & Ht & Hr2 & _)]; [left; by inversion E|].
    apply IH in E; [|by rewrite Ht|rewrite Ht; apply Hr2].
    rewrite Ht in E. fold n in E.
    destruct E as [->|(-> & Ht' & Hr3 & Hc)]; [by left|right].
    refine (conj eq_refl (conj _ (conj _ Hc))); [congruence|].
    eapply rearranged_trans; [exact Hr1|].
    eapply rearranged_trans; [|exact Hr3].
    eapply rearranged_weaken; [|exact Hr2].
    intros j [Hj Hd]. split; [done|]. by apply desc_of_parent.
  - inversion E; subst r s'. right.
    refine (conj eq_refl (conj eq_refl (conj (rearranged_refl _ _ _ Hl) _))).
    unfold float_cond_val. fold a.
    destruct (i / 2 =? 0) eqn:Ep; [done|apply Nat.eqb_neq in Ep].
    rewrite less_val_num by (apply Hl; fold n; lia).
    rewrite bool_decide_eq_false_2; [done|]. intros ?. apply H1. split; [lia|done].
Qed.

(** ** Heap order *)

Lemma heap_at_frame a a' n t :
  heap_at a n t -> (forall j, desc t j -> aget a' j = aget a j) -> heap_at a' n t.
Proof.
  intros H F c Hc Hd.
  rewrite (F c) by (by apply desc_of_parent). rewrite (F (c / 2)) by done.
  by apply H.
Qed.

Lemma heap_ok_at a n : heap_ok a n <-> heap_at a n 1.
Proof.
  split.
  - intros H c Hc Hd. apply H. apply desc_le in Hd. pose proof (half_spec c). lia.
  - intros H c Hc. apply H; [lia|]. apply desc_one. pose proof (half_spec c). lia.
Qed.

(** When the two subtrees under [i] are heaps, [_sink i] makes the subtree
    of [i] a heap, with a root no greater than any bound on [i] and its two
    children. *)
Lemma sink_heap f : forall i s s',
  1 <= i -> live (storage s) (_count (this s)) ->
  heap_at (storage s) (_count (this s)) (2 * i) ->
  heap_at (storage s) (_count (this s)) (2 * i + 1) ->
  _sink f i s = (Ok tt, s') ->
  heap_at (storage s') (_count (this s)) i /\
  (forall b,
     (key (aget (storage s) i) <= b)%Z ->
     (2 * i <= _count (this s) -> (key (aget (storage s) (2 * i)) <= b)%Z) ->
     (2 * i + 1 <= _count (this s) -> (key (aget (storage s) (2 * i + 1)) <= b)%Z) ->
     (key (aget (storage s') i) <= b)%Z).
Proof.
  induction f as [|f IH]; intros i s s' Hi Hl HL HR E; [done|].
  rewrite sink_step in E by done.
  set (a := storage s) in *. set (n := _count (this s)) in *.
  assert (Hstep : forall k k', (k = 2 * i /\ k' = 2 * i + 1 \/ k = 2 * i + 1 /\ k' = 2 * i) ->
    k <= n ->
    (_sink f k >> _sink f i) (with_storage s (swap_arr a i k)) = (Ok tt, s') ->
    heap_at (storage s') n i /\
    (forall b, (key (aget a i) <= b)%Z ->
       (2 * i <= n -> (key (aget a (2 * i)) <= b)%Z) ->
       (2 * i + 1 <= n -> (key (aget a (2 * i + 1)) <= b)%Z) ->
       (key (aget (storage s') i) <= b)%Z)).
  { intros k k' Hk Hkn E'.
    assert (i < length a) by (apply is_num_lt, Hl; fold n; lia).
    assert (k < length a) by (apply is_num_lt, Hl; fold n; lia).
    assert (Hak : heap_at a n k) by (by destruct Hk as [[-> _]|[-> _]]).
    assert (Hak' : heap_at a n k') by (by destruct Hk as [[_ ->]|[_ ->]]).
    assert (Hdk : forall j, desc k j -> desc k' j -> False).
    { intros j. destruct Hk as [[-> ->]|[-> ->]]; intros ??; by eapply desc_disjoint. }
    assert (Hlive1 : live (swap_arr a i k) n).
    { apply live_swap; try done; lia. }
    assert (Hsw : forall j, j <> i -> j <> k -> aget (swap_arr a i k) j = aget a j).
    { intros j ??. rewrite aget_swap_arr by done. by rewrite !decide_False. }
    rewrite run_bind in E'.
    destruct (_sink f k (with_storage s (swap_arr a i k))) as [r1 s1] eqn:E1.
    pose proof E1 as E1'.
    apply sink_effect in E1'; [|lia|by rewrite storage_with_storage].
    rewrite storage_with_storage in E1'. cbn [this with_storage] in E1'. fold n in E1'.
    destruct E1' as [->|(-> & Ht & (Hlen & Hlive2 & _ & F2) & _)]; [done|].
    assert (Hkb0 : forall b, (2 * i <= n -> (key (aget a (2 * i)) <= b)%Z) ->
              (2 * i + 1 <= n -> (key (aget a (2 * i + 1)) <= b)%Z) ->
              (key (aget a k) <= b)%Z /\ (k' <= n -> (key (aget a k') <= b)%Z)).
    { intros b ??. destruct Hk as [[-> ->]|[-> ->]]; split; auto. }
    apply IH in E1; [|lia|by rewrite storage_with_storage|..].
    2:{ rewrite storage_with_storage. cbn [this with_storage]. fold n.
        apply (heap_at_frame a); [intros c ??; apply Hak; [done|by apply desc_child_l]|].
        intros j Hj%desc_le. apply Hsw; lia. }
    2:{ rewrite storage_with_storage. cbn [this with_storage]. fold n.
        apply (heap_at_frame a); [intros c ??; apply Hak; [done|by apply desc_child_r]|].
        intros j Hj%desc_le. apply Hsw; lia. }
    rewrite storage_with_storage in E1. cbn [this with_storage] in E1. fold n in E1.
    destruct E1 as [Hk2 RB1].
    assert (Hsib : forall j, desc k' j -> aget (storage s1) j = aget a j).
    { intros j Hj. rewrite (aget_frame _ _ j (F2 j ltac:(intros [? _]; by eapply Hdk))).
      apply Hsw.
      - apply desc_le in Hj. lia.
      - intros ->. eapply Hdk; [constructor|done]. }
    assert (Hi2 : aget (storage s1) i = aget a k).
    { rewrite (aget_frame _ _ i (F2 i ltac:(intros [Hd%desc_le _]; lia))).
      rewrite aget_swap_arr by done. rewrite decide_False by lia.
      by rewrite decide_True. }
    apply IH in E'; [|done|by rewrite Ht|rewrite Ht; fold n..].
    2:{ destruct Hk as [[-> ->]|[-> ->]]; [done|by apply (heap_at_frame a)]. }
    2:{ destruct Hk as [[-> ->]|[-> ->]]; [by apply (heap_at_frame a)|done]. }
    rewrite Ht in E'. fold n in E'. destruct E' as [Hi3 RB2].
    split; [done|]. intros b Hb Hbl Hbr.
    destruct (Hkb0 b Hbl Hbr) as [Hkb Hkb'].
    assert (Hk1 : (key (aget (storage s1) k) <= b)%Z).
    { apply RB1.
      - rewrite aget_swap_arr by done. by rewrite decide_True.
      - intros ?. rewrite Hsw by lia. etrans; [|exact Hkb].
        specialize (Hak (2 * k)). rewrite half_double in Hak. apply Hak; [done|constructor].
      - intros ?. rewrite Hsw by lia. etrans; [|exact Hkb].
        specialize (Hak (2 * k + 1)). rewrite half_double1 in Hak.
        apply Hak; [done|constructor]. }
    assert (Hk1' : k' <= n -> (key (aget (storage s1) k') <= b)%Z).
    { intros ?. rewrite Hsib by constructor. auto. }
    apply RB2.
    - by rewrite Hi2.
    - destruct Hk as [[-> ->]|[-> ->]]; auto.
    - destruct Hk as [[-> ->]|[-> ->]]; auto. }
  destruct (decide (2 * i <= n /\ _)) as [[H1 H2]|H1].
  { apply (Hstep (2 * i) (2 * i + 1)); auto. }
  destruct (decide (2 * i + 1 <= n /\ _)) as [[H3 H4]|H3].
  { apply (Hstep (2 * i + 1) (2 * i)); auto. }
  inversion E; subst s'. fold a. split; [|auto].
  intros c Hc Hd. pose proof (half_spec c) as [Ec Hm].
  apply desc_split in Hd as [Hd|[Hd|Hd]]; [|by apply HL|by apply HR].
  rewrite Hd. destruct (decide (c = 2 * i)) as [->|Hne].
  - destruct (Z.le_gt_cases (key (aget a (2 * i))) (key (aget a i))); [done|].
    exfalso. apply H1. split; [lia|]. lia.
  - assert (c = 2 * i + 1) as -> by lia.
    destruct (Z.le_gt_cases (key (aget a (2 * i + 1))) (key (aget a i))); [done|].
    exfalso. apply H3. split; [lia|]. lia.
Qed.

Lemma heap_ok_except a n i : 1 <= i <= n -> heap_ok a n -> heap_except a n i.
Proof.
  intros Hi H. split; [by auto|].
  intros c Hc Hp Hi2. etrans; [by apply H|]. rewrite Hp. apply H. lia.
Qed.

(** When only the edge into [i] may be out of order, [_float i] restores
    heap order. *)
Lemma float_heap f : forall i s s',
  1 <= i <= _count (this s) -> live (storage s) (_count (this s)) ->
  heap_except (storage s) (_count (this s)) i ->
  _float f i s = (Ok tt, s') ->
  heap_ok (storage s') (_count (this s)).
Proof.
  induction f as [|f IH]; intros i s s' Hi Hl [H1 H2] E; [done|].
  rewrite float_step in E by done.
  set (a := storage s) in *. set (n := _count (this s)) in *.
  pose proof (half_spec i) as [Ei Hm].
  destruct (decide (2 <= i /\ _)) as [[Hi2 Hlt]|Hno].
  - set (p := i / 2) in *.
    assert (i < length a) by (apply is_num_lt, Hl; lia).
    assert (p < length a) by (apply is_num_lt, Hl; lia).
    pose proof (half_spec p) as [Ep Hmp].
    assert (Hlive1 : live (swap_arr a i p) n) by (apply live_swap; [done|lia|lia]).
    rewrite run_bind in E.
    destruct (_float f p (with_storage s (swap_arr a i p))) as [r1 s1] eqn:E1.
    pose proof E1 as E1'.
    apply float_effect in E1';
      [|cbn [this with_storage]; fold n; lia
       |by rewrite storage_with_storage].
    destruct E1' as [->|(-> & Ht & (_ & Hlive2 & _) & _)]; [done|].
    cbn [this with_storage] in Ht, Hlive2. fold n in Hlive2.
    apply IH in E1; [|cbn [this with_storage]; fold n; lia
                     |by rewrite storage_with_storage|].
    + cbn [this with_storage] in E1. fold n in E1.
      assert (E2 : heap_ok (storage s') (_count (this s1))).
      { apply (IH i s1 s'); rewrite ?Ht; fold n; try done.
        apply heap_ok_except; [lia|done]. }
      by rewrite Ht in E2.
    + rewrite storage_with_storage. cbn [this with_storage]. fold n.
      split.
      * intros c Hc Hcp. pose proof (half_spec c) as [Ec Hmc].
        rewrite !aget_swap_arr by done.
        destruct (decide (c = p)) as [|_]; [done|].
        destruct (decide (c = i)) as [->|Hci].
        { fold p. rewrite decide_True by done. lia. }
        destruct (decide (c / 2 = p)) as [Ecp|Hcp'].
        { specialize (H1 c Hc Hci). rewrite Ecp in H1. lia. }
        destruct (decide (c / 2 = i)) as [Eci|_]; [|by apply H1].
        apply H2; done.
      * intros c Hc Hcp Hp2. pose proof (half_spec c) as [Ec Hmc].
        rewrite !aget_swap_arr by done.
        rewrite (decide_False (P := p / 2 = p)) by lia.
        rewrite (decide_False (P := p / 2 = i)) by lia.
        assert (Hpp : (key (aget a p) <= key (aget a (p / 2)))%Z).
        { apply H1; lia. }
        rewrite (decide_False (P := c = p)) by lia.
        destruct (decide (c = i)) as [->|Hci]; [done|].
        etrans; [|exact Hpp]. specialize (H1 c Hc Hci). by rewrite Hcp in H1.
  - inversion E; subst s'. fold a. intros c Hc.
    destruct (decide (c = i)) as [->|Hci]; [|by apply H1].
    destruct (Z.le_gt_cases (key (aget a i)) (key (aget a (i / 2)))); [done|].
    exfalso. apply Hno. split; [lia|done].
Qed.

(** The root of a heap carries the greatest key. *)
Lemma heap_root_max a n j : heap_ok a n -> 1 <= j <= n ->
  (key (aget a j) <= key (aget a 1))%Z.
Proof.
  intros H. induction (lt_wf j) as [j _ IH]. intros Hj.
  destruct (decide (j = 1)) as [->|Hne]; [done|].
  pose proof (half_spec j). etrans; [apply H; lia|]. apply IH; lia.
Qed.

Lemma heap_order_of_ok s :
  live (storage s) (_count (this s)) -> heap_ok (storage s) (_count (this s)) ->
  heap_order s.
Proof.
  intros Hl H i Hi. unfold _parent. pose proof (half_spec i).
  specialize (H i ltac:(lia)).
  destruct (Hl i ltac:(lia)) as (p & e & Hp).
  destruct (Hl (i / 2) ltac:(lia)) as (q & e' & Hq).
  rewrite Hp, Hq in *. done.
Qed.

(** ** Runs that settle: from some fuel on, the outcome is one and the same *)

Lemma settles_ext {A} (m m' : nat -> M A) s r s' :
  (forall f, m f s = m' f s) -> settles m' s r s' -> settles m s r s'.
Proof. intros E [f0 H]. exists f0. intros f Hf. rewrite E. by apply H. Qed.

Lemma settles_sink i s :
  1 <= i -> live (storage s) (_count (this s)) ->
  exists s', settles (fun f => _sink f i) s (Ok tt) s' /\
    this s' = this s /\
    rearranged (fun j => desc i j /\ j <= _count (this s)) (_count (this s))
      (storage s) (storage s') /\
    sink_cond_val (storage s') (_count (this s)) i = Ok false /\
    (heap_at (storage s) (_count (this s)) (2 * i) ->
     heap_at (storage s) (_count (this s)) (2 * i + 1) ->
     heap_at (storage s') (_count (this s)) i).
Proof.
  intros Hi Hl.
  destruct (_sink (fuel_of (storage s)) i s) as [r s'] eqn:E.
  pose proof (sink_fuel i s _ (le_n _)) as [_ Hr]. rewrite E in Hr. simpl in Hr.
  pose proof E as E'. apply sink_effect in E' as [->|(-> & Ht & Hre & Hc)]; try done.
  exists s'. split; [|repeat split; try done; try apply Hre].
  - exists (fuel_of (storage s)). intros f Hf.
    by rewrite (proj1 (sink_fuel i s f Hf)).
  - intros HL HR. by eapply sink_heap.
Qed.

Lemma settles_float i s :
  1 <= i <= _count (this s) -> live (storage s) (_count (this s)) ->
  exists s', settles (fun f => _float f i) s (Ok tt) s' /\
    this s' = this s /\
    rearranged (fun j => 1 <= j /\ desc j i) (_count (this s))
      (storage s) (storage s') /\
    float_cond_val (storage s') i = Ok false /\
    (heap_except (storage s) (_count (this s)) i ->
     heap_ok (storage s') (_count (this s))).
Proof.
  intros Hi Hl.
  destruct (_float (fuel_of (storage s)) i s) as [r s'] eqn:E.
  pose proof (float_fuel i s _ (le_n _)) as [_ Hr]. rewrite E in Hr. simpl in Hr.
  pose proof E as E'. apply float_effect in E' as [->|(-> & Ht & Hre & Hc)]; try done.
  exists s'. split; [|repeat split; try done; try apply Hre].
  - exists (fuel_of (storage s)). intros f Hf.
    by rewrite (proj1 (float_fuel i s f Hf)).
  - intros HE. by eapply float_heap.
Qed.

(** ** The records of the live prefix *)

Lemma live_cells_rearranged (R : nat -> Prop) n a a' :
  (forall j, R j -> 1 <= j <= n) -> rearranged R n a a' ->
  live_cells a' n ≡ₚ live_cells a n.
Proof.
  intros HR (Hlen & _ & Hp & F). unfold live_cells.
  assert (E1 : take 1 a' = take 1 a).
  { apply list_eq. intros j. destruct (decide (j < 1)).
    - rewrite !lookup_take_lt by done. apply F. intros ?%HR. lia.
    - by rewrite !lookup_take_ge by lia. }
  assert (E2 : drop (1 + n) a' = drop (1 + n) a).
  { apply list_eq. intros j. rewrite !lookup_drop. apply F. intros ?%HR. lia. }
  rewrite <- (take_drop 1 a), <- (take_drop 1 a') in Hp.
  rewrite E1 in Hp. apply Permutation_app_inv_l in Hp.
  rewrite <- (take_drop n (drop 1 a)), <- (take_drop n (drop 1 a')) in Hp.
  rewrite !drop_drop, E2 in Hp. by apply Permutation_app_inv_r in Hp.
Qed.

Lemma live_cells_lookup a n j v :
  live_cells a n !! j = Some v <-> a !! (S j) = Some v /\ j < n.
Proof.
  unfold live_cells. rewrite lookup_take_Some, lookup_drop. done.
Qed.

Lemma contents_elem s p e :
  (p, e) ∈ contents s ->
  exists j, 1 <= j <= _count (this s) /\ aget (storage s) j = SRec (Rec (Some p) e).
Proof.
  unfold contents. intros (v & Hv & Hsp)%list_elem_of_omap.
  apply list_elem_of_lookup in Hv as [j Hj].
  apply live_cells_lookup in Hj as [Hj Hn].
  exists (S j). split; [lia|]. rewrite (aget_lookup _ _ _ Hj).
  destruct v as [| |[[q|] e']]; try done. by inversion Hsp.
Qed.

(** ** The public methods, one call at a time *)

Lemma run_get_count {B} (k : nat -> M B) s :
  (let! c := get_count in k c) s = k (_count (this s)) s.
Proof. done. Qed.

Lemma run_get_size {B} (k : nat -> M B) s :
  (let! c := get_size in k c) s = k (size (this s)) s.
Proof. done. Qed.

Lemma run_set_count {B} c (m : M B) s : (set_count c >> m) s = m (with_count s c).
Proof. done. Qed.

Lemma run_read {B} i (k : slot -> M B) s :
  (let! r := read i in k r) s = k (aget (storage s) i) s.
Proof. done. Qed.

Lemma run_write {B} i v (m : M B) s :
  (write i v >> m) s = m (with_storage s (aset (storage s) i v)).
Proof. done. Qed.

Lemma run_swap_then {B} i j (m : M B) s :
  (_swap i j >> m) s = m (with_storage s (swap_arr (storage s) i j)).
Proof. by rewrite run_bind, run_swap. Qed.

Lemma run_insert_full f p e s :
  ~ _count (this s) < size (this s) -> insert f p e s = (Throw HeapFull, s).
Proof.
  intros H. unfold insert. rewrite run_get_count, run_get_size.
  apply Nat.ltb_nlt in H. by rewrite H.
Qed.

Lemma run_insert f p e s :
  _count (this s) < size (this s) ->
  insert f p e s =
    _float f (_count (this s) + 1)
      (with_storage (with_count s (_count (this s) + 1))
         (aset (storage s) (_count (this s) + 1) (SRec (Rec (Some p) e)))).
Proof.
  intros H. unfold insert. rewrite run_get_count, run_get_size.
  apply Nat.ltb_lt in H. rewrite H.
  rewrite run_set_count. rewrite run_bind, run_get_count. done.
Qed.

Lemma run_removeMax_0 f s :
  _count (this s) = 0 -> removeMax f s = (Ok VUndefined, s).
Proof. intros H. unfold removeMax. rewrite run_get_count. by rewrite H. Qed.

Lemma run_removeMax_1 f s r :
  _count (this s) = 1 -> aget (storage s) 1 = SRec r ->
  removeMax f s =
    (Ok (element r), with_storage (with_count s 0) (aset (storage s) 1 SNull)).
Proof.
  intros H Hr. unfold removeMax. rewrite run_get_count. rewrite H.
  cbn [Nat.eqb Nat.sub]. rewrite run_set_count, run_read.
  rewrite storage_with_count, Hr. done.
Qed.

Lemma run_removeMax f s r :
  2 <= _count (this s) -> _count (this s) < length (storage s) ->
  aget (storage s) 1 = SRec r ->
  removeMax f s =
    (_sink f 1 >> ret (element r))
      (with_count
         (with_storage s
            (aset (swap_arr (storage s) 1 (_count (this s))) (_count (this s)) SNull))
         (_count (this s) - 1)).
Proof.
  intros H Hlen Hr. unfold removeMax. rewrite run_get_count.
  set (c := _count (this s)) in *.
  destruct (c =? 0) eqn:E0; [apply Nat.eqb_eq in E0; lia|].
  destruct (c =? 1) eqn:E1; [apply Nat.eqb_eq in E1; lia|].
  rewrite run_swap_then, run_read, storage_with_storage.
  rewrite aget_swap_arr by lia. rewrite decide_True by done. rewrite Hr.
  cbn [element_of]. unfold ret at 1. rewrite run_bind.
  rewrite run_write, storage_with_storage, with_storage_twice.
  rewrite run_set_count. done.
Qed.

(** A successful [insert]. *)
Lemma insert_spec p e s :
  wf s -> _count (this s) < size (this s) ->
  exists s', settles (fun f => insert f p e) s (Ok tt) s' /\
    wf s' /\
    _count (this s') = _count (this s) + 1 /\
    size (this s') = size (this s) /\
    _storage (this s') = _storage (this s) /\
    contents s' ≡ₚ (p, e) :: contents s /\
    (heap_ok (storage s) (_count (this s)) ->
     heap_ok (storage s') (_count (this s'))).
Proof.
  intros (Hlen & Hc & Hl) Hlt.
  set (a := storage s) in *. set (c := _count (this s)) in *.
  set (v := SRec (Rec (Some p) e)).
  set (s1 := with_storage (with_count s (c + 1)) (aset a (c + 1) v)).
  assert (Ha1 : storage s1 = <[c + 1 := v]> a).
  { unfold s1. rewrite storage_with_storage. apply aset_lt. lia. }
  assert (Hg : forall j, aget (storage s1) j = if decide (j = c + 1) then v else aget a j).
  { intros j. rewrite Ha1. apply aget_insert. lia. }
  assert (Hl1 : live (storage s1) (c + 1)).
  { intros j Hj. rewrite Hg. case_decide; [by eexists _, _|apply Hl; lia]. }
  destruct (settles_float (c + 1) s1) as (s' & Hs & Ht & Hre & _ & Hh);
    [cbn; lia|done|].
  cbn [s1 this with_storage with_count _count] in Ht, Hre, Hh.
  exists s'. split.
  { eapply settles_ext; [|exact Hs]. intros f. by apply run_insert. }
  rewrite Ht. cbn [_count size _storage]. split; [|repeat split; try done].
  - destruct Hre as (Hlen' & Hl' & _). split; [|split]; rewrite ?Ht; cbn; try done; try lia.
    rewrite Hlen', Ha1, length_insert. done.
  - unfold contents. rewrite Ht. cbn [_count].
    assert (HR : forall j, 1 <= j /\ desc j (c + 1) -> 1 <= j <= c + 1).
    { intros j [? ?%desc_le]. lia. }
    rewrite (live_cells_rearranged _ _ _ _ HR Hre).
    rewrite Ha1. unfold live_cells.
    replace (c + 1) with (S c) by lia.
    rewrite (take_S_r _ c v).
    2:{ rewrite lookup_drop. apply list_lookup_insert_eq. lia. }
    rewrite drop_insert_ge by lia. rewrite take_insert_ge by lia.
    rewrite omap_app. simpl. fold (live_cells a c).
    by rewrite <- Permutation_cons_append.
  - intros Hok. apply Hh. split.
    + intros x Hx Hne. pose proof (half_spec x). rewrite !Hg.
      rewrite !decide_False by lia. apply Hok. lia.
    + intros x Hx Hp. pose proof (half_spec x). lia.
Qed.

(** A call of [removeMax]. *)
Lemma removeMax_spec s :
  wf s ->
  exists v s', settles removeMax s (Ok v) s' /\
    wf s' /\
    _count (this s') = _count (this s) - 1 /\
    size (this s') = size (this s) /\
    _storage (this s') = _storage (this s) /\
    (_count (this s) = 0 -> v = VUndefined /\ s' = s) /\
    (1 <= _count (this s) ->
       exists p, aget (storage s) 1 = SRec (Rec (Some p) v) /\
                 contents s ≡ₚ (p, v) :: contents s') /\
    (heap_ok (storage s) (_count (this s)) ->
     heap_ok (storage s') (_count (this s'))).
Proof.
  intros Hwf. pose proof Hwf as (Hlen & Hc & Hl).
  set (a := storage s) in *. set (c := _count (this s)) in *.
  destruct (decide (c = 0)) as [E0|N0].
  { exists VUndefined, s. split; [|repeat split; try done; try lia].
    exists 0. intros f _. by apply run_removeMax_0. }
  destruct (Hl 1 ltac:(lia)) as (p & v & H1).
  destruct (decide (c = 1)) as [E1|N1].
  { exists v, (with_storage (with_count s 0) (aset a 1 SNull)). split.
    { exists 0. intros f _. by rewrite (run_removeMax_1 f s _ E1 H1). }
    cbn [this with_storage with_count _count size _storage].
    split; [|repeat split; try done; try lia].
    - split; [|split]; cbn [this with_storage with_count _count size]; try lia.
      + rewrite storage_with_storage, length_aset_lt; [done|lia].
      + intros j Hj. lia.
    - intros _. exists p. split; [done|].
      unfold contents. cbn [this with_storage with_count _count]. fold a c.
      rewrite E1. unfold live_cells.
      rewrite (take_S_r _ 0 (SRec (Rec (Some p) v))).
      + by rewrite !take_0.
      + rewrite lookup_drop. by apply aget_is_rec.
    - intros _ x Hx. lia. }
  assert (Hc1 : 1 < length a) by (apply is_num_lt, Hl; lia).
  assert (Hcl : c < length a) by (apply is_num_lt, Hl; lia).
  set (a1 := swap_arr a 1 c).
  set (s2 := with_count (with_storage s (aset a1 c SNull)) (c - 1)).
  assert (Hlen1 : length a1 = length a) by (by apply length_swap_arr).
  assert (Ha2 : storage s2 = <[c := SNull]> a1).
  { unfold s2. rewrite storage_with_count, storage_with_storage. apply aset_lt. lia. }
  assert (Hg : forall j, j < c ->
            aget (storage s2) j = if decide (j = 1) then aget a c else aget a j).
  { intros j Hj. rewrite Ha2, aget_insert by lia. rewrite decide_False by lia.
    unfold a1. rewrite aget_swap_arr by done. by rewrite decide_False by lia. }
  assert (Hl2 : live (storage s2) (c - 1)).
  { intros j Hj. rewrite Hg by lia. case_decide; apply Hl; lia. }
  destruct (settles_sink 1 s2) as (s' & Hs & Ht & Hre & _ & Hh); [lia|done|].
  cbn [s2 this with_storage with_count _count] in Ht, Hre, Hh.
  exists v, s'. split.
  { destruct Hs as [f0 Hf0]. exists f0. intros f Hf.
    rewrite (run_removeMax f s _ ltac:(fold c; lia) Hcl H1).
    fold a c a1 s2. by rewrite run_bind, Hf0. }
  rewrite Ht. cbn [_count size _storage].
  split; [|repeat split; try done; try lia].
  - destruct Hre as (Hlen' & Hl' & _).
    split; [|split]; rewrite ?Ht; cbn [_count size]; try done; try lia.
    rewrite Hlen', Ha2, length_insert. lia.
  - intros _. exists p. split; [done|].
    unfold contents. rewrite Ht. cbn [_count]. fold a c.
    assert (HR : forall j, desc 1 j /\ j <= c - 1 -> 1 <= j <= c - 1).
    { intros j [?%desc_le ?]. lia. }
    rewrite (live_cells_rearranged _ _ _ _ HR Hre).
    assert (Hsw : rearranged (fun j => 1 <= j <= c) c a a1).
    { apply rearranged_swap; try done; lia. }
    rewrite <- (live_cells_rearranged _ _ _ _ (fun j H => H) Hsw).
    rewrite Ha2. unfold live_cells.
    replace c with (S (c - 1)) at 1 by lia.
    rewrite (take_S_r _ (c - 1) (SRec (Rec (Some p) v))).
    2:{ rewrite lookup_drop. replace (1 + (c - 1)) with c by lia.
        apply aget_is_rec. unfold a1. rewrite aget_swap_arr by done.
        by rewrite decide_True. }
    rewrite drop_insert_ge by lia. rewrite take_insert_ge by lia.
    rewrite omap_app. simpl. by rewrite <- Permutation_cons_append.
  - intros Hok. apply heap_ok_at. apply Hh.
    + intros x Hx Hd%desc_le. pose proof (half_spec x).
      rewrite !Hg by lia. rewrite !decide_False by lia. apply Hok. lia.
    + intros x Hx Hd%desc_le. pose proof (half_spec x).
      rewrite !Hg by lia. rewrite !decide_False by lia. apply Hok. lia.
Qed.

Lemma run_sort_0 f s :
  _count (this s) = 0 -> sort (S f) s = (Ok (_storage (this s)), s).
Proof. intros H. cbn [sort]. rewrite run_get_count, H. done. Qed.

Lemma run_sort f s :
  0 < _count (this s) ->
  sort (S f) s =
    (_sink f 1 >> sort f)
      (with_count (with_storage s (swap_arr (storage s) 1 (_count (this s))))
         (_count (this s) - 1)).
Proof.
  intros H. cbn [sort]. rewrite run_get_count.
  apply Nat.ltb_lt in H. rewrite H. by rewrite run_swap_then, run_set_count.
Qed.

(** A call of [sort] on any well-formed state. *)
Lemma sort_spec n : forall s,
  wf s -> _count (this s) = n ->
  exists s', settles sort s (Ok (_storage (this s))) s' /\
    wf s' /\ _count (this s') = 0 /\
    size (this s') = size (this s) /\ _storage (this s') = _storage (this s).
Proof.
  induction n as [|n IH]; intros s Hwf Hn.
  { exists s. split; [|done]. exists 1. intros [|f] Hf; [lia|]. by apply run_sort_0. }
  pose proof Hwf as (Hlen & Hc & Hl).
  set (a := storage s) in *. set (c := _count (this s)) in *.
  assert (Hc1 : 1 < length a) by (apply is_num_lt, Hl; lia).
  assert (Hcl : c < length a) by (apply is_num_lt, Hl; lia).
  set (s2 := with_count (with_storage s (swap_arr a 1 c)) (c - 1)).
  assert (Hl2 : live (storage s2) (c - 1)).
  { unfold s2. rewrite storage_with_count, storage_with_storage.
    intros j Hj. apply (live_swap a c); try done; lia. }
  destruct (settles_sink 1 s2) as (s3 & [f1 Hs] & Ht & (Hlen3 & Hl3 & _) & _); [lia|done|].
  cbn [s2 this with_storage with_count _count] in Ht, Hl3.
  unfold s2 in Hlen3. rewrite storage_with_count, storage_with_storage in Hlen3.
  rewrite length_swap_arr in Hlen3 by done.
  destruct (IH s3) as (s' & [f2 Hs'] & Hwf' & Hc' & Hsz & Hst).
  { split; [|split]; rewrite Ht; cbn [_count size]; try done; lia. }
  { rewrite Ht. cbn. lia. }
  rewrite Ht in Hsz, Hst, Hs'. cbn [_count size _storage] in Hsz, Hst, Hs'.
  exists s'. split; [|done].
  exists (S (f1 `max` f2)). intros [|f] Hf; [lia|].
  rewrite run_sort by (fold c; lia). fold a c s2.
  rewrite run_bind, Hs by lia. apply Hs'. lia.
Qed.

(** ** Sequences of calls *)

Lemma settles_ops_nil s : settles_ops [] s [] s.
Proof. by exists 0. Qed.

Lemma settles_ops_cons o os s r s1 tr s' :
  settles (fun f => exec f o) s r s1 -> settles_ops os s1 tr s' ->
  settles_ops (o :: os) s (mkStep s o r s1 :: tr) s'.
Proof.
  intros [f1 H1] [f2 H2]. exists (f1 `max` f2). intros f Hf.
  cbn [run_ops]. rewrite H1 by lia. cbn [fst snd]. by rewrite H2 by lia.
Qed.

Lemma run_ops_app f ops1 ops2 s :
  run_ops f (ops1 ++ ops2) s =
    ((run_ops f ops1 s).1 ++ (run_ops f ops2 (run_ops f ops1 s).2).1,
     (run_ops f ops2 (run_ops f ops1 s).2).2).
Proof.
  revert s. induction ops1 as [|o os IH]; intros s.
  - simpl. by destruct (run_ops f ops2 s).
  - cbn [run_ops app]. rewrite IH. done.
Qed.

Lemma settles_ops_app ops1 ops2 s tr1 s1 tr2 s2 :
  settles_ops ops1 s tr1 s1 -> settles_ops ops2 s1 tr2 s2 ->
  settles_ops (ops1 ++ ops2) s (tr1 ++ tr2) s2.
Proof.
  intros [f1 H1] [f2 H2]. exists (f1 `max` f2). intros f Hf.
  rewrite run_ops_app, H1 by lia. cbn [fst snd]. by rewrite H2 by lia.
Qed.

Lemma exec_spec b o s :
  Inv b s ->
  exists r s', settles (fun f => exec f o) s r s' /\ Inv b s' /\
    step_ok (mkStep s o r s') /\
    size (this s') = size (this s) /\ _storage (this s') = _storage (this s).
Proof.
  intros [Hwf Hh]. destruct o as [p e| | |].
  - destruct (decide (_count (this s) < size (this s))) as [Hlt|Hge].
    + destruct (insert_spec p e s Hwf Hlt) as (s' & [f0 Hs] & Hwf' & Hc & Hsz & Hst & _ & Hh').
      exists (Ok RUnit), s'. split; [|split; [|split]]; try done.
      * exists f0. intros f Hf. cbn [exec]. by rewrite run_bind, Hs.
      * split; [done|]. auto.
      * cbn. lia.
    + exists (Throw HeapFull), s. split; [|split; [|split]]; try done.
      * exists 0. intros f _. cbn [exec]. by rewrite run_bind, run_insert_full.
      * cbn. destruct Hwf as (_ & ? & _). repeat split; try done. lia.
  - destruct (removeMax_spec s Hwf) as (v & s' & [f0 Hs] & Hwf' & _ & Hsz & Hst & _ & _ & Hh').
    exists (Ok (RValue v)), s'. split; [|split; [|split]]; try done.
    + exists f0. intros f Hf. cbn [exec]. by rewrite run_bind, Hs.
    + split; [done|]. auto.
    + cbn. intros [? _]. done.
  - exists (Ok (RNat (_count (this s)))), s. split; [|split; [|split]]; try done.
    + by exists 0.
    + cbn. intros [? _]. done.
  - destruct (sort_spec _ s Hwf eq_refl) as (s' & [f0 Hs] & Hwf' & Hc & Hsz & Hst).
    exists (Ok (RArray (_storage (this s)))), s'. split; [|split; [|split]]; try done.
    + exists f0. intros f Hf. cbn [exec]. by rewrite run_bind, Hs.
    + split; [done|]. intros _ x Hx. lia.
    + cbn. intros [? _]. done.
Qed.

Lemma run_ops_spec b ops : forall s,
  Inv b s ->
  exists tr s', settles_ops ops s tr s' /\ Inv b s' /\
    Forall (fun st => Inv b (before st) /\ Inv b (after st) /\ step_ok st) tr.
Proof.
  induction ops as [|o os IH]; intros s Hs.
  { exists [], s. split; [apply settles_ops_nil|]. split; [done|constructor]. }
  destruct (exec_spec b o s Hs) as (r & s1 & Hx & Hs1 & Hok & _).
  destruct (IH s1 Hs1) as (tr & s' & Hos & Hs' & Htr).
  exists (mkStep s o r s1 :: tr), s'. split; [by apply settles_ops_cons|].
  split; [done|]. constructor; [|done]. done.
Qed.

(** ** Fuel and the public methods *)

Lemma buildheap_mono f f' i :
  f <= f' -> le_run (_buildheap_from f i) (_buildheap_from f' i).
Proof.
  revert f' i. induction f as [|f IH]; intros f' i Hf; [apply le_run_out|].
  destruct f' as [|f']; [lia|]. cbn [_buildheap_from].
  apply le_run_bind; [apply le_run_refl|]. intros sz.
  destruct (i <=? sz); [|apply le_run_refl].
  apply le_run_bind; [apply sink_mono; lia|]. intros _. apply IH. lia.
Qed.

Lemma sort_mono f f' : f <= f' -> le_run (sort f) (sort f').
Proof.
  revert f'. induction f as [|f IH]; intros f' Hf; [apply le_run_out|].
  destruct f' as [|f']; [lia|]. cbn [sort].
  apply le_run_bind; [apply le_run_refl|]. intros c.
  destruct (0 <? c); [|apply le_run_refl].
  apply le_run_bind; [apply le_run_refl|]. intros _.
  apply le_run_bind; [apply le_run_refl|]. intros _.
  apply le_run_bind; [apply sink_mono; lia|]. intros _. apply IH. lia.
Qed.

Lemma insert_mono f f' p e : f <= f' -> le_run (insert f p e) (insert f' p e).
Proof.
  intros Hf. unfold insert.
  apply le_run_bind; [apply le_run_refl|]. intros c.
  apply le_run_bind; [apply le_run_refl|]. intros sz.
  destruct (c <? sz); [|apply le_run_refl].
  apply le_run_bind; [apply le_run_refl|]. intros _.
  apply le_run_bind; [apply le_run_refl|]. intros _.
  apply le_run_bind; [apply le_run_refl|]. intros c2. by apply float_mono.
Qed.

Lemma removeMax_mono f f' : f <= f' -> le_run (removeMax f) (removeMax f').
Proof.
  intros Hf. unfold removeMax.
  apply le_run_bind; [apply le_run_refl|]. intros c.
  destruct (c =? 0); [apply le_run_refl|].
  destruct (c =? 1); [apply le_run_refl|].
  apply le_run_bind; [apply le_run_refl|]. intros _.
  apply le_run_bind; [apply le_run_refl|]. intros r.
  apply le_run_bind; [apply le_run_refl|]. intros e.
  apply le_run_bind; [apply le_run_refl|]. intros _.
  apply le_run_bind; [apply le_run_refl|]. intros _.
  apply le_run_bind; [by apply sink_mono|]. intros _. apply le_run_refl.
Qed.

Lemma exec_mono f f' o : f <= f' -> le_run (exec f o) (exec f' o).
Proof.
  intros Hf. destruct o; cbn [exec].
  - apply le_run_bind; [by apply insert_mono|]. intros ?. apply le_run_refl.
  - apply le_run_bind; [by apply removeMax_mono|]. intros ?. apply le_run_refl.
  - apply le_run_refl.
  - apply le_run_bind; [by apply sort_mono|]. intros ?. apply le_run_refl.
Qed.

Lemma run_ops_mono f f' ops : forall s tr s',
  f <= f' -> run_ops f ops s = (tr, s') ->
  Forall (fun st => outcome st <> NoFuel) tr ->
  run_ops f' ops s = (tr, s').
Proof.
  induction ops as [|o os IH]; intros s tr s' Hf E Htr; [done|].
  cbn [run_ops] in *. destruct (exec f o s) as [r s1] eqn:E1.
  cbn [fst snd] in *. destruct (run_ops f os s1) as [tr1 s2] eqn:E2.
  cbn [fst snd] in *. inversion E; subst tr s'.
  apply Forall_cons in Htr as [Hr Htr]. cbn in Hr.
  rewrite (exec_mono f f' o Hf _ _ _ E1 Hr). cbn [fst snd].
  by rewrite (IH _ _ _ Hf E2 Htr).
Qed.

Lemma new_fromArray_mono f f' a m r s :
  f <= f' -> new_fromArray f a m = (r, s) -> r <> NoFuel ->
  new_fromArray f' a m = (r, s).
Proof. intros Hf. unfold new_fromArray, _buildheap. by apply buildheap_mono. Qed.

Lemma heapsort_mono f f' a m r s :
  f <= f' -> heapsort f a m = (r, s) -> r <> NoFuel -> heapsort f' a m = (r, s).
Proof.
  intros Hf. unfold heapsort.
  destruct (new_fromArray f a m) as [r1 s1] eqn:E1.
  destruct r1 as [[]|e|]; [|intros [= <- <-] _|by intros [= <- <-] Hr].
  - rewrite (new_fromArray_mono f f' a m _ _ Hf E1) by done.
    destruct (sort f s1) as [r2 s2] eqn:E2.
    destruct r2 as [l|e|]; intros [= <- <-] Hr; [| |done].
    + by rewrite (sort_mono f f' Hf _ _ _ E2).
    + by rewrite (sort_mono f f' Hf _ _ _ E2).
  - by rewrite (new_fromArray_mono f f' a m _ _ Hf E1).
Qed.

(** ** The constructors *)

Lemma storage_new_empty c m :
  storage (new_empty c m) = SNull :: replicate c blank.
Proof. unfold storage, new_empty. simpl. by rewrite lookup_total_insert_eq. Qed.

Lemma new_empty_inv c m b : Inv b (new_empty c m).
Proof.
  split; [split; [|split]|].
  - rewrite storage_new_empty. simpl. by rewrite length_replicate.
  - cbn. lia.
  - intros j Hj. cbn in Hj. lia.
  - intros _ x Hx. cbn in Hx. lia.
Qed.

Lemma contents_new_empty c m : contents (new_empty c m) = [].
Proof. unfold contents, live_cells. cbn [new_empty this _count]. by rewrite take_0. Qed.

Lemma buildheap_spec k : forall i s,
  wf s -> S (size (this s)) - i = k -> 1 <= i ->
  exists s', settles (fun f => _buildheap_from f i) s (Ok tt) s' /\
    wf s' /\ this s' = this s /\ storage s' ≡ₚ storage s.
Proof.
  induction k as [|k IH]; intros i s Hwf Hk Hi.
  { exists s. split; [|done]. exists 1. intros [|f] Hf; [lia|].
    cbn [_buildheap_from]. rewrite run_get_size.
    destruct (i <=? size (this s)) eqn:E; [apply Nat.leb_le in E; lia|done]. }
  pose proof Hwf as (Hlen & Hc & Hl).
  destruct (settles_sink i s Hi Hl) as (s1 & [f1 Hs] & Ht & (Hlen1 & Hl1 & Hp1 & _) & _).
  destruct (IH (i + 1) s1) as (s' & [f2 Hs'] & Hwf' & Ht' & Hp'); [|rewrite Ht; lia|lia|].
  { split; [|split]; rewrite Ht; try done. by rewrite Hlen1. }
  exists s'. split; [|split; [done|split; [congruence|by rewrite Hp']]].
  exists (S (f1 `max` f2)). intros [|f] Hf; [lia|].
  cbn [_buildheap_from]. rewrite run_get_size.
  destruct (i <=? size (this s)) eqn:E; [|apply Nat.leb_gt in E; lia].
  rewrite run_bind, Hs by lia. apply Hs'. lia.
Qed.

Lemma aget_mk_array rs j :
  1 <= j <= length rs -> is_num (aget (mk_array rs) j).
Proof.
  intros Hj. destruct j as [|j]; [lia|]. unfold aget, mk_array. simpl.
  rewrite list_lookup_fmap.
  destruct (lookup_lt_is_Some_2 rs j ltac:(lia)) as [[p e] ->]. by eexists _, _.
Qed.

(** Building a heap from a 1-indexed array of records ends without error, on
    the same array object, with [size = count = length - 1]. *)
Lemma new_fromArray_spec a (m : gmap loc (list slot)) rs :
  m !! a = Some (mk_array rs) ->
  exists s, (exists f0, forall f, f0 <= f -> new_fromArray f a m = (Ok tt, s)) /\
    wf s /\ _storage (this s) = a /\
    size (this s) = length rs /\ _count (this s) = length rs /\
    storage s ≡ₚ mk_array rs.
Proof.
  intros Hm.
  assert (Ha : m !!! a = mk_array rs) by (by apply lookup_total_correct).
  set (n := length (m !!! a) - 1).
  assert (Hn : n = length rs).
  { unfold n. rewrite Ha. unfold mk_array. simpl. rewrite length_map. lia. }
  set (s0 := mkState (mkMaxHeap a n n) m).
  assert (Hst : storage s0 = mk_array rs) by done.
  destruct (buildheap_spec (S n - 1) 1 s0) as (s & Hs & Hwf & Ht & Hp); [|done|lia|].
  { split; [|split]; rewrite ?Hst; cbn [s0 this size _count]; try lia.
    - unfold mk_array. simpl. rewrite length_map. lia.
    - intros j Hj. apply aget_mk_array. lia. }
  exists s. rewrite Ht. cbn [s0 this _storage size _count].
  split; [exact Hs|]. split; [done|]. split; [done|].
  split; [done|]. split; [done|]. by rewrite Hp, Hst.
Qed.

(** ** Sequences of [insert] and [removeMax] *)

Lemma queue_run ops : forall s,
  Inv true s -> queue_ops ops = true ->
  never_full (size (this s)) (_count (this s)) ops = true ->
  exists tr s', settles_ops ops s tr s' /\
    Forall (fun st => (exists v, outcome st = Ok v) /\ Inv true (after st)) tr.
Proof.
  induction ops as [|o os IH]; intros s [Hwf Hh] Hq Hn.
  { exists [], s. split; [apply settles_ops_nil|constructor]. }
  cbn [queue_ops forallb] in Hq. apply andb_prop in Hq as [Ho Hq].
  destruct o as [p e| | |]; try done; cbn [never_full] in Hn.
  - apply andb_prop in Hn as [Hlt%Nat.ltb_lt Hn].
    destruct (insert_spec p e s Hwf Hlt) as (s1 & [f0 Hs] & Hwf1 & Hc & Hsz & _ & _ & Hh1).
    destruct (IH s1) as (tr & s' & Hos & Htr); [split; auto|done|by rewrite Hsz, Hc|].
    exists (mkStep s (OInsert p e) (Ok RUnit) s1 :: tr), s'. split.
    + apply settles_ops_cons; [|done]. exists f0. intros f Hf.
      cbn [exec]. by rewrite run_bind, Hs.
    + constructor; [|done]. cbn. split; [by eexists|]. split; auto.
  - destruct (removeMax_spec s Hwf) as (v & s1 & [f0 Hs] & Hwf1 & Hc & Hsz & _ & _ & _ & Hh1).
    destruct (IH s1) as (tr & s' & Hos & Htr); [split; auto|done|by rewrite Hsz, Hc|].
    exists (mkStep s ORemoveMax (Ok (RValue v)) s1 :: tr), s'. split.
    + apply settles_ops_cons; [|done]. exists f0. intros f Hf.
      cbn [exec]. by rewrite run_bind, Hs.
    + constructor; [|done]. cbn. split; [by eexists|]. split; auto.
Qed.

Lemma Inv_heap_order s : Inv true s -> heap_order s.
Proof. intros [(_ & _ & Hl) Hh]. apply heap_order_of_ok; auto. Qed.

(** C3 -- heap order after every call.  For every capacity and every sequence
    of [insert] and [removeMax] calls on a new empty heap in which no
    [insert] is attempted on a full heap, there is an amount of fuel from
    which on every call returns normally and leaves the storage heap-ordered
    over the live prefix: for all [i] with [1 < i <= count], the priority at
    [parent i] is at least the priority at [i]. *)
Theorem heap_order_after_each_call :
  forall (c : nat) (m : gmap loc (list slot)) (ops : list op),
    queue_ops ops = true ->
    never_full c 0 ops = true ->
    exists f0, forall fuel, f0 <= fuel ->
      Forall (fun st => (exists v, outcome st = Ok v) /\ heap_order (after st))
        (run_ops fuel ops (new_empty c m)).1.
Proof.
  intros c m ops Hq Hn.
  destruct (queue_run ops (new_empty c m)) as (tr & s' & [f0 Hs] & Htr);
    [apply new_empty_inv|done|done|].
  exists f0. intros fuel Hf. rewrite Hs by done. cbn [fst].
  eapply Forall_impl; [exact Htr|]. intros st [? ?]. split; [done|].
  by apply Inv_heap_order.
Qed.

Lemma heap_order_after_each_call_witness :
  exists f0, forall fuel, f0 <= fuel ->
    Forall (fun st => (exists v, outcome st = Ok v) /\ heap_order (after st))
      (run_ops fuel
         [OInsert 5 (VStr "a"); OInsert 1 (VStr "b"); ORemoveMax; OInsert 9 (VStr "c")]
         (new_empty 2 ∅)).1.
Proof.
  apply (heap_order_after_each_call 2 ∅
           [OInsert 5 (VStr "a"); OInsert 1 (VStr "b"); ORemoveMax; OInsert 9 (VStr "c")]);
    reflexivity.
Defined.

Lemma inserts_spec rs : forall s,
  Inv true s -> _count (this s) + length rs <= size (this s) ->
  exists tr s', settles_ops (ins <$> rs) s tr s' /\ Inv true s' /\
    outcome <$> tr = replicate (length rs) (Ok RUnit) /\
    contents s' ≡ₚ rs ++ contents s /\
    _count (this s') = _count (this s) + length rs /\
    size (this s') = size (this s).
Proof.
  induction rs as [|[p e] rs IH]; intros s [Hwf Hh] Hn.
  { exists [], s. split; [apply settles_ops_nil|]. split; [by split|].
    cbn. split; [done|]. split; [done|]. split; [lia|done]. }
  cbn [length] in Hn.
  destruct (insert_spec p e s Hwf ltac:(lia))
    as (s1 & [f0 Hs] & Hwf1 & Hc & Hsz & _ & Hp & Hh1).
  destruct (IH s1) as (tr & s' & Hos & Hinv & Hout & Hp' & Hc' & Hsz');
    [split; auto|lia|].
  exists (mkStep s (OInsert p e) (Ok RUnit) s1 :: tr), s'.
  split; [|split; [done|split; [|split; [|split]]]].
  - apply (settles_ops_cons (ins (p, e))); [|done]. exists f0. intros f Hf.
    cbn [exec ins fst snd]. by rewrite run_bind, Hs.
  - cbn. by rewrite Hout.
  - rewrite Hp', Hp. cbn. by rewrite Permutation_middle.
  - cbn [length]. lia.
  - congruence.
Qed.

Lemma drain_spec n : forall s,
  Inv true s -> _count (this s) = n ->
  exists out tr s', settles_ops (replicate n ORemoveMax) s tr s' /\
    outcome <$> tr = (fun pe : Z * value => Ok (RValue pe.2)) <$> out /\
    out ≡ₚ contents s /\
    StronglySorted (fun x y : Z * value => (y.1 <= x.1)%Z) out /\
    _count (this s') = 0 /\ wf s'.
Proof.
  induction n as [|n IH]; intros s [Hwf Hh] Hn.
  { exists [], [], s. split; [apply settles_ops_nil|].
    split; [done|]. split; [|split; [constructor|done]].
    unfold contents, live_cells. by rewrite Hn, take_0. }
  destruct (removeMax_spec s Hwf)
    as (v & s1 & [f0 Hs] & Hwf1 & Hc & _ & _ & _ & Hroot & Hh1).
  destruct (Hroot ltac:(lia)) as (p & H1 & Hp).
  destruct (IH s1) as (out & tr & s' & Hos & Hout & Hperm & Hsort & Hc' & Hwf');
    [split; auto|lia|].
  exists ((p, v) :: out), (mkStep s ORemoveMax (Ok (RValue v)) s1 :: tr), s'.
  split; [|split; [|split; [|split; [|done]]]].
  - cbn [replicate]. apply settles_ops_cons; [|done]. exists f0. intros f Hf.
    cbn [exec]. by rewrite run_bind, Hs.
  - cbn. by rewrite Hout.
  - by rewrite Hp, Hperm.
  - constructor; [done|]. apply Forall_forall. intros [q e] Hq. cbn.
    assert (Hin : (q, e) ∈ contents s).
    { rewrite Hp. apply elem_of_cons. right. by rewrite <- Hperm. }
    apply contents_elem in Hin as (j & Hj & Hjq).
    pose proof (heap_root_max _ _ j (Hh eq_refl) Hj) as Hle.
    by rewrite Hjq, H1 in Hle.
Qed.

(** C4 -- extraction in priority order.  For [n <= c] pairs inserted into a
    new empty heap of capacity [c], the next [n] calls of [removeMax] return
    the elements of a rearrangement [out] of the inserted pairs whose
    priorities never increase, and one more call returns [undefined]. *)
Theorem removeMax_in_priority_order :
  forall (c : nat) (m : gmap loc (list slot)) (rs : list (Z * value)),
    length rs <= c ->
    exists out : list (Z * value),
      out ≡ₚ rs /\
      StronglySorted (fun x y : Z * value => (y.1 <= x.1)%Z) out /\
      exists f0, forall fuel, f0 <= fuel ->
        outcome <$>
          (run_ops fuel ((ins <$> rs) ++ replicate (S (length rs)) ORemoveMax)
             (new_empty c m)).1 =
        replicate (length rs) (Ok RUnit) ++
        ((fun pe : Z * value => Ok (RValue pe.2)) <$> out) ++
        [Ok (RValue VUndefined)].
Proof.
  intros c m rs Hlen.
  destruct (inserts_spec rs (new_empty c m))
    as (tr1 & s1 & Hs1 & Hinv1 & Hout1 & Hp1 & Hc1 & _);
    [apply new_empty_inv|cbn; lia|].
  rewrite contents_new_empty, app_nil_r in Hp1. cbn in Hc1.
  destruct (drain_spec (length rs) s1 Hinv1 Hc1)
    as (out & tr2 & s2 & Hs2 & Hout2 & Hp2 & Hsort & Hc2 & Hwf2).
  exists out. split; [by rewrite Hp2|]. split; [done|].
  rewrite replicate_S_end.
  assert (Hs3 : settles_ops [ORemoveMax] s2
                  [mkStep s2 ORemoveMax (Ok (RValue VUndefined)) s2] s2).
  { apply settles_ops_cons; [|apply settles_ops_nil]. exists 0. intros f _.
    cbn [exec]. by rewrite run_bind, run_removeMax_0. }
  destruct (settles_ops_app _ _ _ _ _ _ _ Hs1 (settles_ops_app _ _ _ _ _ _ _ Hs2 Hs3))
    as [f0 Hf0].
  exists f0. intros fuel Hf. rewrite Hf0 by done. cbn [fst].
  rewrite !fmap_app, Hout1, Hout2. done.
Qed.

Lemma removeMax_in_priority_order_witness :
  exists out : list (Z * value),
    out ≡ₚ [(5, VStr "a"); (1, VStr "b"); (9, VStr "c"); (3, VStr "d")]%Z /\
    StronglySorted (fun x y : Z * value => (y.1 <= x.1)%Z) out /\
    exists f0, forall fuel, f0 <= fuel ->
      outcome <$>
        (run_ops fuel
           ((ins <$> [(5, VStr "a"); (1, VStr "b"); (9, VStr "c"); (3, VStr "d")]%Z) ++
            replicate 5 ORemoveMax)
           (new_empty 4 ∅)).1 =
      replicate 4 (Ok RUnit) ++
      ((fun pe : Z * value => Ok (RValue pe.2)) <$> out) ++
      [Ok (RValue VUndefined)].
Proof.
  apply (removeMax_in_priority_order 4 ∅
           [(5, VStr "a"); (1, VStr "b"); (9, VStr "c"); (3, VStr "d")]%Z).
  simpl. lia.
Defined.

(** C5 -- the capacity boundary, and the only error.  (1) On a new empty heap
    of capacity [length rs], the inserts of all of [rs] succeed, one more
    [insert] throws the capacity error, and [count()] then returns the
    capacity.  (2) and (3) Whatever calls of [insert], [removeMax], [count]
    and [sort] follow either constructor, each call returns normally, except
    an [insert] made when [count = size], which throws the capacity error and
    changes nothing: no other error is thrown. *)
Theorem capacity_error_is_the_only_error :
  forall (m : gmap loc (list slot)) (rs : list (Z * value)) (p : Z) (e : value)
         (a : loc) (ops : list op),
    (exists f0, forall fuel, f0 <= fuel ->
       outcome <$>
         (run_ops fuel ((ins <$> rs) ++ [OInsert p e; OCount])
            (new_empty (length rs) m)).1 =
       replicate (length rs) (Ok RUnit) ++ [Throw HeapFull; Ok (RNat (length rs))]) /\
    (exists f0, forall fuel, f0 <= fuel ->
       Forall step_ok (run_ops fuel ops (new_empty (length rs) m)).1) /\
    (exists f0, forall fuel, f0 <= fuel ->
       exists s, new_fromArray fuel a (<[a := mk_array rs]> m) = (Ok tt, s) /\
                 Forall step_ok (run_ops fuel ops s).1).
Proof.
  intros m rs p e a ops. split; [|split].
  - destruct (inserts_spec rs (new_empty (length rs) m))
      as (tr1 & s1 & Hs1 & [Hwf1 _] & Hout1 & _ & Hc1 & Hsz1);
      [apply new_empty_inv|cbn; lia|].
    cbn in Hc1, Hsz1.
    assert (Hs2 : settles_ops [OInsert p e; OCount] s1
                    [mkStep s1 (OInsert p e) (Throw HeapFull) s1;
                     mkStep s1 OCount (Ok (RNat (length rs))) s1] s1).
    { apply settles_ops_cons; [|apply settles_ops_cons; [|apply settles_ops_nil]].
      - exists 0. intros f _. cbn [exec]. rewrite run_bind, run_insert_full; [done|lia].
      - exists 0. intros f _. cbn [exec count]. by rewrite run_get_count, Hc1. }
    destruct (settles_ops_app _ _ _ _ _ _ _ Hs1 Hs2) as [f0 Hf0].
    exists f0. intros fuel Hf. rewrite Hf0 by done. cbn [fst].
    by rewrite fmap_app, Hout1.
  - destruct (run_ops_spec false ops (new_empty (length rs) m))
      as (tr & s' & [f0 Hs] & _ & Htr); [apply new_empty_inv|].
    exists f0. intros fuel Hf. rewrite Hs by done. cbn [fst].
    eapply Forall_impl; [exact Htr|]. by intros st (_ & _ & ?).
  - destruct (new_fromArray_spec a (<[a := mk_array rs]> m) rs)
      as (s & [f1 Hs] & Hwf & _); [apply lookup_insert_eq|].
    destruct (run_ops_spec false ops s) as (tr & s' & [f2 Hs'] & _ & Htr); [by split|].
    exists (f1 `max` f2). intros fuel Hf. exists s. split; [apply Hs; lia|].
    rewrite Hs' by lia. cbn [fst].
    eapply Forall_impl; [exact Htr|]. by intros st (_ & _ & ?).
Qed.

(** C9 -- [insert] on a full heap is atomic.  When [count = size], [insert]
    throws the capacity error and the state after the call is the state
    before it: count, capacity and every cell of every array. *)
Theorem insert_full_changes_nothing :
  forall (fuel : nat) (p : Z) (e : value) (s : state),
    _count (this s) = size (this s) ->
    insert fuel p e s = (Throw HeapFull, s).
Proof. intros fuel p e s H. apply run_insert_full. lia. Qed.

Lemma insert_full_changes_nothing_witness :
  _count (this (insert 10 5 (VStr "a") (new_empty 1 ∅)).2) =
    size (this (insert 10 5 (VStr "a") (new_empty 1 ∅)).2) /\
  insert 10 9 (VStr "c") (insert 10 5 (VStr "a") (new_empty 1 ∅)).2 =
    (Throw HeapFull, (insert 10 5 (VStr "a") (new_empty 1 ∅)).2).
Proof.
  split; [reflexivity|].
  apply (insert_full_changes_nothing 10 9 (VStr "c")
           (insert 10 5 (VStr "a") (new_empty 1 ∅)).2).
  reflexivity.
Defined.

(** C10 -- [undefined] is what [removeMax] returns on an empty heap, and also
    what it returns on a heap whose only record has the element [undefined]:
    the two calls return the same value, although [count()] is 0 before the
    first and 1 before the second. *)
Theorem removeMax_undefined_is_ambiguous :
  forall (c : nat) (m : gmap loc (list slot)) (p : Z),
    (forall fuel,
       outcome <$> (run_ops fuel [OCount; ORemoveMax] (new_empty c m)).1 =
       [Ok (RNat 0); Ok (RValue VUndefined)]) /\
    (exists f0, forall fuel, f0 <= fuel ->
       outcome <$>
         (run_ops fuel [OInsert p VUndefined; OCount; ORemoveMax] (new_empty (S c) m)).1 =
       [Ok RUnit; Ok (RNat 1); Ok (RValue VUndefined)]).
Proof.
  intros c m p. split; [done|].
  destruct (insert_spec p VUndefined (new_empty (S c) m))
    as (s1 & [f0 Hs] & Hwf1 & Hc & _ & _ & Hp & _);
    [apply (new_empty_inv (S c) m true)|cbn; lia|].
  rewrite contents_new_empty in Hp. cbn in Hc.
  destruct (removeMax_spec s1 Hwf1) as (v & s2 & [f1 Hs'] & _ & _ & _ & _ & _ & Hroot & _).
  destruct (Hroot ltac:(lia)) as (q & _ & Hq).
  rewrite Hp in Hq. apply Permutation_length in Hq as Hlen.
  destruct (contents s2) as [|? ?]; [|done].
  apply Permutation_singleton_l in Hq as [= _ <-].
  assert (Hall : settles_ops [OInsert p VUndefined; OCount; ORemoveMax]
                   (new_empty (S c) m)
                   [mkStep (new_empty (S c) m) (OInsert p VUndefined) (Ok RUnit) s1;
                    mkStep s1 OCount (Ok (RNat 1)) s1;
                    mkStep s1 ORemoveMax (Ok (RValue VUndefined)) s2] s2).
  { repeat apply settles_ops_cons; [| | |apply settles_ops_nil].
    - exists f0. intros f Hf. cbn [exec]. by rewrite run_bind, Hs.
    - exists 0. intros f _. cbn [exec count]. by rewrite run_get_count, Hc.
    - exists f1. intros f Hf. cbn [exec]. by rewrite run_bind, Hs'. }
  destruct Hall as [f2 Hf2]. exists f2. intros fuel Hf. by rewrite Hf2.
Qed.

(** ** The array with priorities 5, 4, 3, 1, 9 *)

Lemma run_ops_stable f f' ops s outs :
  f <= f' ->
  outcome <$> (run_ops f ops s).1 = outs ->
  Forall (fun r => r <> NoFuel) outs ->
  run_ops f' ops s = run_ops f ops s.
Proof.
  intros Hf Ho Hn. destruct (run_ops f ops s) as [tr s'] eqn:E.
  apply (run_ops_mono f f' ops s tr s' Hf E).
  cbn [fst] in Ho. subst outs. apply (proj1 (Forall_fmap _ _ _)) in Hn.
  eapply Forall_impl; [exact Hn|]. by intros st.
Qed.

Lemma new_fromArray_bad fuel :
  12 <= fuel -> new_fromArray fuel 0 bad_mem = new_fromArray 12 0 bad_mem.
Proof.
  intros Hf.
  assert (H12 : (new_fromArray 12 0 bad_mem).1 = Ok tt) by (vm_compute; reflexivity).
  destruct (new_fromArray 12 0 bad_mem) as [r s] eqn:E. cbn [fst] in H12. subst r.
  apply (new_fromArray_mono 12 fuel 0 bad_mem _ _ Hf E). done.
Qed.

(** C1, on the failing input -- [heapsort] of the 1-indexed array with
    priorities 5, 4, 3, 1, 9 returns normally and leaves the priorities
    1, 3, 4, 9, 5 in cells 1..5: not in ascending order. *)
Theorem heapsort_leaves_unsorted :
  forall fuel, 12 <= fuel ->
    (heapsort fuel 0 bad_mem).1 = Ok tt /\
    prios (storage (heapsort fuel 0 bad_mem).2) =
      [Some 1; Some 3; Some 4; Some 9; Some 5]%Z.
Proof.
  intros fuel Hf.
  assert (H12 : (heapsort 12 0 bad_mem).1 = Ok tt) by (vm_compute; reflexivity).
  assert (Hp : prios (storage (heapsort 12 0 bad_mem).2) =
               [Some 1; Some 3; Some 4; Some 9; Some 5]%Z) by (vm_compute; reflexivity).
  destruct (heapsort 12 0 bad_mem) as [r s] eqn:E. cbn [fst snd] in H12, Hp. subst r.
  rewrite (heapsort_mono 12 fuel 0 bad_mem _ _ Hf E); [|discriminate].
  split; [reflexivity|exact Hp].
Qed.

Lemma heapsort_leaves_unsorted_witness :
  (heapsort 12 0 bad_mem).1 = Ok tt /\
  prios (storage (heapsort 12 0 bad_mem).2) =
    [Some 1; Some 3; Some 4; Some 9; Some 5]%Z.
Proof. apply (heapsort_leaves_unsorted 12). lia. Defined.

(** C2, on the failing input -- the heap built from the array with priorities
    5, 4, 3, 1, 9 uses that very array as its storage, with
    [size = count = 5], and holds the priorities 5, 9, 3, 1, 4 in cells 1..5:
    cell 2 is greater than its parent, cell 1. *)
Theorem fromArray_breaks_heap_order :
  forall fuel, 12 <= fuel ->
    (new_fromArray fuel 0 bad_mem).1 = Ok tt /\
    this (new_fromArray fuel 0 bad_mem).2 = mkMaxHeap 0 5 5 /\
    prios (storage (new_fromArray fuel 0 bad_mem).2) =
      [Some 5; Some 9; Some 3; Some 1; Some 4]%Z /\
    ~ heap_order (new_fromArray fuel 0 bad_mem).2.
Proof.
  intros fuel Hf. rewrite (new_fromArray_bad fuel Hf).
  split; [vm_compute; reflexivity|]. split; [vm_compute; reflexivity|].
  split; [vm_compute; reflexivity|].
  intros H. specialize (H 2).
  assert (Hc : 1 < 2 <= _count (this (new_fromArray 12 0 bad_mem).2)).
  { assert (Hn : _count (this (new_fromArray 12 0 bad_mem).2) = 5)
      by (vm_compute; reflexivity).
    rewrite Hn. lia. }
  specialize (H Hc).
  assert (H1 : aget (storage (new_fromArray 12 0 bad_mem).2) (_parent 2) =
               SRec (Rec (Some 5%Z) (VNum 5))) by (vm_compute; reflexivity).
  assert (H2 : aget (storage (new_fromArray 12 0 bad_mem).2) 2 =
               SRec (Rec (Some 9%Z) (VNum 9))) by (vm_compute; reflexivity).
  rewrite H1, H2 in H. cbn [prio_ge] in H. lia.
Qed.

Lemma fromArray_breaks_heap_order_witness :
  (new_fromArray 12 0 bad_mem).1 = Ok tt /\
  this (new_fromArray 12 0 bad_mem).2 = mkMaxHeap 0 5 5 /\
  prios (storage (new_fromArray 12 0 bad_mem).2) =
    [Some 5; Some 9; Some 3; Some 1; Some 4]%Z /\
  ~ heap_order (new_fromArray 12 0 bad_mem).2.
Proof. apply (fromArray_breaks_heap_order 12). lia. Defined.

(** C7, on the failing input -- from the heap built from the array with
    priorities 5, 4, 3, 1, 9, [removeMax] returns 5, 9, 4, 3, 1; after
    inserting the same records one by one into an empty heap of capacity 5 it
    returns 9, 5, 4, 3, 1. *)
Theorem fromArray_order_differs_from_inserts :
  forall fuel, 12 <= fuel ->
    outcome <$>
      (run_ops fuel (replicate 6 ORemoveMax) (new_fromArray fuel 0 bad_mem).2).1 =
      [Ok (RValue (VNum 5)); Ok (RValue (VNum 9)); Ok (RValue (VNum 4));
       Ok (RValue (VNum 3)); Ok (RValue (VNum 1)); Ok (RValue VUndefined)] /\
    outcome <$>
      (run_ops fuel ((ins <$> nums [5; 4; 3; 1; 9]%Z) ++ replicate 6 ORemoveMax)
         (new_empty 5 ∅)).1 =
      replicate 5 (Ok RUnit) ++
      [Ok (RValue (VNum 9)); Ok (RValue (VNum 5)); Ok (RValue (VNum 4));
       Ok (RValue (VNum 3)); Ok (RValue (VNum 1)); Ok (RValue VUndefined)].
Proof.
  intros fuel Hf. rewrite (new_fromArray_bad fuel Hf).
  assert (H1 : outcome <$>
      (run_ops 12 (replicate 6 ORemoveMax) (new_fromArray 12 0 bad_mem).2).1 =
      [Ok (RValue (VNum 5)); Ok (RValue (VNum 9)); Ok (RValue (VNum 4));
       Ok (RValue (VNum 3)); Ok (RValue (VNum 1)); Ok (RValue VUndefined)])
    by (vm_compute; reflexivity).
  assert (H2 : outcome <$>
      (run_ops 12 ((ins <$> nums [5; 4; 3; 1; 9]%Z) ++ replicate 6 ORemoveMax)
         (new_empty 5 ∅)).1 =
      replicate 5 (Ok RUnit) ++
      [Ok (RValue (VNum 9)); Ok (RValue (VNum 5)); Ok (RValue (VNum 4));
       Ok (RValue (VNum 3)); Ok (RValue (VNum 1)); Ok (RValue VUndefined)])
    by (vm_compute; reflexivity).
  split.
  - rewrite (run_ops_stable 12 fuel _ _ _ Hf H1); [exact H1|].
    repeat (constructor; [discriminate|]). constructor.
  - rewrite (run_ops_stable 12 fuel _ _ _ Hf H2); [exact H2|].
    cbn [replicate app]. repeat (constructor; [discriminate|]). constructor.
Qed.

Lemma fromArray_order_differs_from_inserts_witness :
  outcome <$>
    (run_ops 12 (replicate 6 ORemoveMax) (new_fromArray 12 0 bad_mem).2).1 =
    [Ok (RValue (VNum 5)); Ok (RValue (VNum 9)); Ok (RValue (VNum 4));
     Ok (RValue (VNum 3)); Ok (RValue (VNum 1)); Ok (RValue VUndefined)] /\
  outcome <$>
    (run_ops 12 ((ins <$> nums [5; 4; 3; 1; 9]%Z) ++ replicate 6 ORemoveMax)
       (new_empty 5 ∅)).1 =
    replicate 5 (Ok RUnit) ++
    [Ok (RValue (VNum 9)); Ok (RValue (VNum 5)); Ok (RValue (VNum 4));
     Ok (RValue (VNum 3)); Ok (RValue (VNum 1)); Ok (RValue VUndefined)].
Proof. apply (fromArray_order_differs_from_inserts 12). lia. Defined.

(** ** Which child [_sink] exchanges with *)

(** C6, counterexample -- on the heap 4, 2, 3, 1, [removeMax] sinks the
    record of priority 1 from the root, whose children hold 2 (left) and 3
    (right).  The first exchange made by [_sink] is with the left child,
    although the right child is greater than the left one, and the storage
    ends as 3, 1, 2, where exchanging with the larger child ends as
    3, 2, 1. *)
Lemma sink_exchanges_with_left_first :
  prios (storage heap_4231) = [Some 4; Some 2; Some 3; Some 1]%Z /\
  removeMax 12 heap_4231 = (_sink 12 1 >> ret (VNum 4)) heap_4231_sinking /\
  prios (storage heap_4231_sinking) = [Some 1; Some 2; Some 3]%Z /\
  prios (storage (_sink 1 1 heap_4231_sinking).2) = [Some 2; Some 1; Some 3]%Z /\
  (_sink 12 1 heap_4231_sinking).1 = Ok tt /\
  prios (storage (_sink 12 1 heap_4231_sinking).2) = [Some 3; Some 1; Some 2]%Z /\
  (sink_spec 12 1 heap_4231_sinking).1 = Ok tt /\
  prios (storage (sink_spec 12 1 heap_4231_sinking).2) = [Some 3; Some 2; Some 1]%Z /\
  _sink 12 1 heap_4231_sinking <> sink_spec 12 1 heap_4231_sinking.
Proof.
  assert (H1 : prios (storage (_sink 12 1 heap_4231_sinking).2) =
               [Some 3; Some 1; Some 2]%Z) by (vm_compute; reflexivity).
  assert (H2 : prios (storage (sink_spec 12 1 heap_4231_sinking).2) =
               [Some 3; Some 2; Some 1]%Z) by (vm_compute; reflexivity).
  split; [vm_compute; reflexivity|].
  split; [vm_compute; reflexivity|].
  split; [vm_compute; reflexivity|].
  split; [vm_compute; reflexivity|].
  split; [vm_compute; reflexivity|].
  split; [exact H1|].
  split; [vm_compute; reflexivity|].
  split; [exact H2|].
  intros E. rewrite E in H1. rewrite H1 in H2. discriminate H2.
Qed.

Lemma sink_cond_false_keys a n i :
  live a n -> 1 <= i -> sink_cond_val a n i = Ok false ->
  (2 * i <= n -> (key (aget a (2 * i)) <= key (aget a i))%Z) /\
  (2 * i + 1 <= n -> (key (aget a (2 * i + 1)) <= key (aget a i))%Z).
Proof.
  intros Hl Hi. unfold sink_cond_val, child_greater_val.
  destruct (2 * i <=? n) eqn:E1; [apply Nat.leb_le in E1|apply Nat.leb_gt in E1].
  - rewrite less_val_num by (apply Hl; lia).
    destruct (bool_decide_reflect (key (aget a i) < key (aget a (2 * i)))%Z); [done|].
    destruct (2 * i + 1 <=? n) eqn:E2; [apply Nat.leb_le in E2|apply Nat.leb_gt in E2].
    + rewrite less_val_num by (apply Hl; lia).
      destruct (bool_decide_reflect (key (aget a i) < key (aget a (2 * i + 1)))%Z);
        [done|]. intros _. split; intros; lia.
    + intros _. split; intros; lia.
  - intros _. split; intros; lia.
Qed.

(** C6, amended -- on live cells, [_sink i] exchanges the node with its left
    child whenever that child is in range and strictly greater than the node,
    whatever the right child holds; with its right child when the left one is
    not such and the right one is in range and strictly greater; after the
    exchange it sinks the child and tests node [i] again; otherwise it returns
    at once.  When it returns, no child of [i] in range is strictly greater
    than [i]. *)
Theorem sink_prefers_left_child :
  forall (f : nat) (i : nat) (s : state),
    live (storage s) (_count (this s)) -> 1 <= i ->
    let a := storage s in
    let n := _count (this s) in
    (2 * i <= n -> (key (aget a i) < key (aget a (2 * i)))%Z ->
       _sink (S f) i s =
         (_sink f (2 * i) >> _sink f i) (with_storage s (swap_arr a i (2 * i)))) /\
    (~ (2 * i <= n /\ (key (aget a i) < key (aget a (2 * i)))%Z) ->
     2 * i + 1 <= n -> (key (aget a i) < key (aget a (2 * i + 1)))%Z ->
       _sink (S f) i s =
         (_sink f (2 * i + 1) >> _sink f i)
           (with_storage s (swap_arr a i (2 * i + 1)))) /\
    (~ (2 * i <= n /\ (key (aget a i) < key (aget a (2 * i)))%Z) ->
     ~ (2 * i + 1 <= n /\ (key (aget a i) < key (aget a (2 * i + 1)))%Z) ->
       _sink (S f) i s = (Ok tt, s)) /\
    (forall s', _sink f i s = (Ok tt, s') ->
       (2 * i <= n -> (key (aget (storage s') (2 * i)) <= key (aget (storage s') i))%Z) /\
       (2 * i + 1 <= n ->
          (key (aget (storage s') (2 * i + 1)) <= key (aget (storage s') i))%Z)).
Proof.
  intros f i s Hl Hi a n. split; [|split; [|split]].
  - intros H1 H2. rewrite sink_step by done. by rewrite decide_True.
  - intros H1 H2 H3. rewrite sink_step by done.
    rewrite decide_False by done. by rewrite decide_True.
  - intros H1 H2. rewrite sink_step by done. by rewrite !decide_False.
  - intros s' E. apply sink_effect in E as [?|(_ & _ & (_ & Hl' & _) & Hc)]; try done.
    by apply sink_cond_false_keys.
Qed.

Lemma sink_prefers_left_child_witness :
  _sink 12 1 heap_4231_sinking =
    (_sink 11 2 >> _sink 11 1)
      (with_storage heap_4231_sinking (swap_arr (storage heap_4231_sinking) 1 2)).
Proof.
  assert (Hc : _count (this heap_4231_sinking) = 3) by reflexivity.
  assert (H1 : aget (storage heap_4231_sinking) 1 = SRec (Rec (Some 1%Z) (VNum 1)))
    by (vm_compute; reflexivity).
  assert (H2 : aget (storage heap_4231_sinking) 2 = SRec (Rec (Some 2%Z) (VNum 2)))
    by (vm_compute; reflexivity).
  assert (H3 : aget (storage heap_4231_sinking) 3 = SRec (Rec (Some 3%Z) (VNum 3)))
    by (vm_compute; reflexivity).
  assert (Hl : live (storage heap_4231_sinking) (_count (this heap_4231_sinking))).
  { intros j Hj. rewrite Hc in Hj.
    assert (j = 1 \/ j = 2 \/ j = 3) as [-> | [-> | ->]] by lia;
      rewrite ?H1, ?H2, ?H3; by eexists _, _. }
  apply (proj1 (sink_prefers_left_child 11 1 heap_4231_sinking Hl (le_n 1))).
  - rewrite Hc. lia.
  - change (2 * 1) with 2. rewrite H1, H2. cbn [key]. lia.
Defined.

(** ** Where [_float] leaves the record it moves *)

Lemma desc_parent_inv j i : desc j i -> j <> i -> desc j (i / 2).
Proof.
  intros H Hne. inversion H as [E|k Hk E|k Hk E]; [done| |].
  - by rewrite half_double.
  - by rewrite half_double1.
Qed.

(** An ancestor [q] of [i] that is not smaller than any cell between it and
    [i] is left alone by [_float i], as is every cell above it. *)
Lemma float_keeps_top f : forall i s s' q,
  1 <= i <= _count (this s) -> live (storage s) (_count (this s)) ->
  1 <= q -> desc q i -> q <> i ->
  (forall j, desc q j -> j <> q -> desc j i ->
     (key (aget (storage s) j) <= key (aget (storage s) q))%Z) ->
  _float f i s = (Ok tt, s') ->
  (forall j, desc j q -> aget (storage s') j = aget (storage s) j) /\
  (forall j, desc q j -> j <> q -> desc j i ->
     (key (aget (storage s') j) <= key (aget (storage s) q))%Z).
Proof.
  induction f as [|f IH]; intros i s s' q Hi Hl Hq Hd Hne Hb E; [done|].
  rewrite float_step in E by done.
  set (a := storage s) in *. set (n := _count (this s)) in *.
  pose proof (half_spec i) as [Ei Hm].
  destruct (decide (2 <= i /\ _)) as [[Hi2 Hlt]|Hno];
    [|inversion E; subst s'; by split].
  set (p := i / 2) in *.
  assert (Hil : i < length a) by (apply is_num_lt, Hl; lia).
  assert (Hpl : p < length a) by (apply is_num_lt, Hl; lia).
  assert (Hqi : q <= i) by (by apply desc_le).
  assert (Hqp : q <> p).
  { intros ->. specialize (Hb i Hd ltac:(lia) (desc_refl i)). lia. }
  assert (Hdp : desc q p) by (by apply desc_parent_inv).
  assert (Hqp' : q <= p) by (by apply desc_le).
  assert (Hsw : forall j, aget (swap_arr a i p) j =
            if decide (j = p) then aget a i else if decide (j = i) then aget a p
            else aget a j).
  { intros j. by apply aget_swap_arr. }
  assert (Hlive1 : live (swap_arr a i p) n) by (apply live_swap; [done|lia|lia]).
  rewrite run_bind in E.
  destruct (_float f p (with_storage s (swap_arr a i p))) as [r1 s1] eqn:E1.
  pose proof E1 as E1'.
  apply float_effect in E1';
    [|cbn [this with_storage]; fold n; lia|by rewrite storage_with_storage].
  rewrite storage_with_storage in E1'. cbn [this with_storage] in E1'. fold n in E1'.
  destruct E1' as [->|(-> & Ht & (_ & Hlive2 & _ & F2) & _)]; [done|].
  apply (IH p _ _ q) in E1;
    [|cbn [this with_storage]; fold n; lia|by rewrite storage_with_storage|done..| ].
  2:{ rewrite storage_with_storage. intros j Hj Hjq Hjp.
      pose proof (desc_le _ _ Hjp). rewrite !Hsw.
      rewrite (decide_False (P := q = p)) by done.
      rewrite (decide_False (P := q = i)) by lia.
      destruct (decide (j = p)) as [->|?].
      - apply Hb; [done|lia|constructor].
      - rewrite decide_False by lia. apply Hb; [done|done|by apply desc_of_parent]. }
  rewrite storage_with_storage in E1. destruct E1 as [T1 B1].
  assert (Hq1 : aget (swap_arr a i p) q = aget a q).
  { rewrite Hsw. by rewrite !decide_False by lia. }
  rewrite Hq1 in B1.
  assert (Hi2' : aget (storage s1) i = aget a p).
  { rewrite (aget_frame _ _ i (F2 i ltac:(intros [_ ?%desc_le]; lia))).
    rewrite Hsw. rewrite decide_False by lia. by rewrite decide_True. }
  assert (Hq2 : aget (storage s1) q = aget a q).
  { rewrite T1 by constructor. done. }
  apply (IH i _ _ q) in E; rewrite ?Ht; fold n; try done.
  2:{ intros j Hj Hjq Hji. rewrite Hq2.
      destruct (decide (j = i)) as [->|Hjne].
      - rewrite Hi2'. apply Hb; [done|done|]. apply desc_of_parent. constructor.
      - apply B1; [done|done|by apply desc_parent_inv]. }
  destruct E as [T2 B2]. rewrite Hq2 in B2. split; [|done].
  intros j Hj. rewrite T2, T1 by done. pose proof (desc_le _ _ Hj).
  rewrite Hsw. by rewrite !decide_False by lia.
Qed.

(** [_float i] carries the record of cell [i] up to a cell [d] on the path to
    the root: every cell it passes was strictly smaller, and [d] is the root
    or lies under a cell that was not strictly smaller. *)
Lemma float_moves f : forall i s s',
  1 <= i <= _count (this s) -> live (storage s) (_count (this s)) ->
  _float f i s = (Ok tt, s') ->
  exists d, 1 <= d /\ desc d i /\
    aget (storage s') d = aget (storage s) i /\
    (forall j, desc d j -> desc j i -> j <> i ->
       (key (aget (storage s) j) < key (aget (storage s) i))%Z) /\
    (d = 1 \/ (key (aget (storage s) i) <= key (aget (storage s) (d / 2)))%Z) /\
    (forall j, desc d j -> j <> d -> desc j i ->
       (key (aget (storage s') j) <= key (aget (storage s) i))%Z).
Proof.
  induction f as [|f IH]; intros i s s' Hi Hl E; [done|].
  rewrite float_step in E by done.
  set (a := storage s) in *. set (n := _count (this s)) in *.
  pose proof (half_spec i) as [Ei Hm].
  destruct (decide (2 <= i /\ _)) as [[Hi2 Hlt]|Hno].
  2:{ inversion E; subst s'. exists i. fold a.
      split; [lia|]. split; [constructor|]. split; [done|].
      split; [|split].
      - intros j H1%desc_le H2%desc_le. lia.
      - destruct (decide (i = 1)); [by left|right].
        destruct (Z.le_gt_cases (key (aget a i)) (key (aget a (i / 2)))); [done|].
        exfalso. apply Hno. split; [lia|done].
      - intros j H1%desc_le ? H2%desc_le. lia. }
  set (p := i / 2) in *.
  assert (Hil : i < length a) by (apply is_num_lt, Hl; lia).
  assert (Hpl : p < length a) by (apply is_num_lt, Hl; lia).
  assert (Hsw : forall j, aget (swap_arr a i p) j =
            if decide (j = p) then aget a i else if decide (j = i) then aget a p
            else aget a j).
  { intros j. by apply aget_swap_arr. }
  assert (Hlive1 : live (swap_arr a i p) n) by (apply live_swap; [done|lia|lia]).
  rewrite run_bind in E.
  destruct (_float f p (with_storage s (swap_arr a i p))) as [r1 s1] eqn:E1.
  pose proof E1 as E1'.
  apply float_effect in E1';
    [|cbn [this with_storage]; fold n; lia|by rewrite storage_with_storage].
  rewrite storage_with_storage in E1'. cbn [this with_storage] in E1'. fold n in E1'.
  destruct E1' as [->|(-> & Ht & (_ & Hlive2 & _ & F2) & _)]; [done|].
  apply IH in E1;
    [|cbn [this with_storage]; fold n; lia|by rewrite storage_with_storage].
  rewrite storage_with_storage in E1.
  destruct E1 as (d & Hd1 & Hdp & Hrec & Hpass & Hstop & Hbelow).
  rewrite Hsw in Hrec, Hstop, Hbelow.
  rewrite (decide_True (P := p = p)) in Hrec, Hstop, Hbelow by done.
  pose proof (desc_le _ _ Hdp) as Hdle.
  pose proof (half_spec d) as [Ed Hmd].
  assert (Hi2' : aget (storage s1) i = aget a p).
  { rewrite (aget_frame _ _ i (F2 i ltac:(intros [_ ?%desc_le]; lia))).
    rewrite Hsw. rewrite decide_False by lia. by rewrite decide_True. }
  apply (float_keeps_top f i _ _ d) in E; rewrite ?Ht; fold n; try done; try lia.
  2:{ by apply desc_of_parent. }
  2:{ intros j Hj Hjd Hji. rewrite Hrec.
      destruct (decide (j = i)) as [->|Hjne]; [rewrite Hi2'; lia|].
      apply Hbelow; [done|done|by apply desc_parent_inv]. }
  destruct E as [T B]. rewrite Hrec in B.
  exists d. fold a. split; [done|]. split; [by apply desc_of_parent|].
  split; [by rewrite T by constructor|]. split; [|split; [|done]].
  - intros j Hj Hji Hjne. destruct (decide (j = p)) as [->|Hjp]; [done|].
    assert (Hjp' : desc j p) by (by apply desc_parent_inv).
    specialize (Hpass j Hj Hjp' Hjp). rewrite !Hsw in Hpass.
    rewrite (decide_True (P := p = p)) in Hpass by done.
    rewrite (decide_False (P := j = p)) in Hpass by done.
    by rewrite (decide_False (P := j = i)) in Hpass by done.
  - destruct Hstop as [?|Hstop]; [by left|right].
    rewrite ?Hsw in Hstop.
    rewrite (decide_False (P := d / 2 = p)) in Hstop by lia.
    by rewrite (decide_False (P := d / 2 = i)) in Hstop by lia.
Qed.

(** C8 -- [_float] and [_sink] terminate.  On every state [s0] and index
    [i0], from some amount of fuel on neither routine runs out of fuel.  On a
    well-formed state ([count <= size], records in cells [1..count]) and for
    [1 <= i <= count], both return normally.  [_float] leaves the record it
    moves in a cell [d] on the path from [i] to the root, having passed only
    cells of strictly smaller priority, and [d] is the root or the cell above
    [d] was not strictly smaller than the record.  When [_sink] returns, no
    child of [i] within [1..count] has a strictly greater priority than
    [i]. *)
Theorem float_and_sink_terminate :
  forall (s0 : state) (i0 : nat) (s : state) (i : nat),
    wf s -> 1 <= i <= _count (this s) ->
    (exists f0, forall fuel, f0 <= fuel ->
       (_float fuel i0 s0).1 <> NoFuel /\ (_sink fuel i0 s0).1 <> NoFuel) /\
    (exists s' d,
       settles (fun f => _float f i) s (Ok tt) s' /\
       1 <= d /\ desc d i /\
       aget (storage s') d = aget (storage s) i /\
       (forall j, desc d j -> desc j i -> j <> i ->
          (key (aget (storage s) j) < key (aget (storage s) i))%Z) /\
       (d = 1 \/ (key (aget (storage s) i) <= key (aget (storage s) (d / 2)))%Z)) /\
    (exists s',
       settles (fun f => _sink f i) s (Ok tt) s' /\
       (2 * i <= _count (this s) ->
          (key (aget (storage s') (2 * i)) <= key (aget (storage s') i))%Z) /\
       (2 * i + 1 <= _count (this s) ->
          (key (aget (storage s') (2 * i + 1)) <= key (aget (storage s') i))%Z)).
Proof.
  intros s0 i0 s i (Hlen & Hc & Hl) Hi. split; [|split].
  - exists (fuel_of (storage s0)). intros fuel Hf. split.
    + by apply float_fuel.
    + by apply sink_fuel.
  - destruct (settles_float i s Hi Hl) as (s' & Hs & _).
    pose proof Hs as [f0 Hf0].
    destruct (float_moves f0 i s s' Hi Hl (Hf0 f0 (le_n _)))
      as (d & Hd & Hdi & Hrec & Hpass & Hstop & _).
    by exists s', d.
  - destruct (settles_sink i s ltac:(lia) Hl) as (s' & Hs & _ & (_ & Hl' & _) & Hcond & _).
    exists s'. split; [done|]. by apply sink_cond_false_keys; [|lia|].
Qed.

Lemma float_and_sink_terminate_witness :
  (exists f0, forall fuel, f0 <= fuel ->
     (_float fuel 7 heap_4231).1 <> NoFuel /\ (_sink fuel 7 heap_4231).1 <> NoFuel) /\
  (exists s' d,
     settles (fun f => _float f 1) heap_4231_sinking (Ok tt) s' /\
     1 <= d /\ desc d 1 /\
     aget (storage s') d = aget (storage heap_4231_sinking) 1 /\
     (forall j, desc d j -> desc j 1 -> j <> 1 ->
        (key (aget (storage heap_4231_sinking) j) <
         key (aget (storage heap_4231_sinking) 1))%Z) /\
     (d = 1 \/ (key (aget (storage heap_4231_sinking) 1) <=
                key (aget (storage heap_4231_sinking) (d / 2)))%Z)) /\
  (exists s',
     settles (fun f => _sink f 1) heap_4231_sinking (Ok tt) s' /\
     (2 * 1 <= _count (this heap_4231_sinking) ->
        (key (aget (storage s') (2 * 1)) <= key (aget (storage s') 1))%Z) /\
     (2 * 1 + 1 <= _count (this heap_4231_sinking) ->
        (key (aget (storage s') (2 * 1 + 1)) <= key (aget (storage s') 1))%Z)).
Proof.
  assert (Hc : _count (this heap_4231_sinking) = 3) by reflexivity.
  assert (Hsz : size (this heap_4231_sinking) = 4) by reflexivity.
  assert (Hlen : length (storage heap_4231_sinking) = 5) by (vm_compute; reflexivity).
  assert (H1 : aget (storage heap_4231_sinking) 1 = SRec (Rec (Some 1%Z) (VNum 1)))
    by (vm_compute; reflexivity).
  assert (H2 : aget (storage heap_4231_sinking) 2 = SRec (Rec (Some 2%Z) (VNum 2)))
    by (vm_compute; reflexivity).
  assert (H3 : aget (storage heap_4231_sinking) 3 = SRec (Rec (Some 3%Z) (VNum 3)))
    by (vm_compute; reflexivity).
  apply (float_and_sink_terminate heap_4231 7 heap_4231_sinking 1).
  - split; [|split].
    + rewrite Hlen, Hsz. reflexivity.
    + rewrite Hc, Hsz. lia.
    + intros j Hj. rewrite Hc in Hj.
      assert (j = 1 \/ j = 2 \/ j = 3) as [-> | [-> | ->]] by lia;
        rewrite ?H1, ?H2, ?H3; by eexists _, _.
  - rewrite Hc. lia.
Defined.

(** ** What no method touches *)

Lemma frame_refl s : frame s s.
Proof. by split. Qed.

Lemma frame_trans s1 s2 s3 : frame s1 s2 -> frame s2 s3 -> frame s1 s3.
Proof.
  intros (H1 & H2 & H3) (K1 & K2 & K3). split; [congruence|]. split; [congruence|].
  intros l Hl. rewrite K3 by congruence. by apply H3.
Qed.

Lemma keeps_frame_pure {A} (m : M A) :
  (forall s, (m s).2 = s) -> keeps_frame m.
Proof. intros H s r s' E. specialize (H s). rewrite E in H. cbn in H. subst s'. apply frame_refl. Qed.

Lemma keeps_frame_bind {A B} (m : M A) (k : A -> M B) :
  keeps_frame m -> (forall a, keeps_frame (k a)) -> keeps_frame (bind m k).
Proof.
  intros Hm Hk s r s'. unfold bind.
  destruct (m s) as [[a|e|] s1] eqn:E; intros E'.
  - eapply frame_trans; [by eapply Hm|by eapply Hk].
  - inversion E'; subst. by eapply Hm.
  - inversion E'; subst. by eapply Hm.
Qed.

Lemma keeps_frame_set_count c : keeps_frame (set_count c).
Proof. intros s r s' [= <- <-]. by split. Qed.

Lemma keeps_frame_write i v : keeps_frame (write i v).
Proof.
  intros s r s' [= <- <-]. split; [done|]. split; [done|].
  intros l Hl. cbn. by rewrite lookup_insert_ne.
Qed.

Lemma keeps_frame_prio i : keeps_frame (prio i).
Proof.
  apply keeps_frame_pure. intros s. rewrite run_prio.
  by destruct (aget (storage s) i).
Qed.

Lemma keeps_frame_element_of v : keeps_frame (element_of v).
Proof. apply keeps_frame_pure. intros s. by destruct v. Qed.

Lemma keeps_frame_swap i j : keeps_frame (_swap i j).
Proof.
  unfold _swap. apply keeps_frame_bind; [by apply keeps_frame_pure|]. intros x.
  apply keeps_frame_bind; [by apply keeps_frame_pure|]. intros y.
  apply keeps_frame_bind; [apply keeps_frame_write|]. intros _.
  apply keeps_frame_write.
Qed.

Lemma keeps_frame_float f : forall i, keeps_frame (_float f i).
Proof.
  induction f as [|f IH]; intros i; [by apply keeps_frame_pure|].
  cbn [_float]. apply keeps_frame_bind.
  { apply keeps_frame_pure. intros s. by rewrite run_float_cond. }
  intros [|]; [|by apply keeps_frame_pure].
  apply keeps_frame_bind; [apply keeps_frame_swap|]. intros _.
  apply keeps_frame_bind; [apply IH|]. intros _. apply IH.
Qed.

Lemma keeps_frame_sink f : forall i, keeps_frame (_sink f i).
Proof.
  induction f as [|f IH]; intros i; [by apply keeps_frame_pure|].
  cbn [_sink]. apply keeps_frame_bind.
  { apply keeps_frame_pure. intros s. by rewrite run_sink_cond. }
  intros [|]; [|by apply keeps_frame_pure].
  apply keeps_frame_bind.
  { apply keeps_frame_pure. intros s. by rewrite run_less. }
  intros [|].
  { apply keeps_frame_bind; [apply keeps_frame_swap|]. intros _.
    apply keeps_frame_bind; [apply IH|]. intros _. apply IH. }
  apply keeps_frame_bind.
  { apply keeps_frame_pure. intros s. by rewrite run_less. }
  intros [|]; [|by apply keeps_frame_pure].
  apply keeps_frame_bind; [apply keeps_frame_swap|]. intros _.
  apply keeps_frame_bind; [apply IH|]. intros _. apply IH.
Qed.

Lemma keeps_frame_buildheap f : forall i, keeps_frame (_buildheap_from f i).
Proof.
  induction f as [|f IH]; intros i; [by apply keeps_frame_pure|].
  cbn [_buildheap_from]. apply keeps_frame_bind; [by apply keeps_frame_pure|].
  intros sz. destruct (i <=? sz); [|by apply keeps_frame_pure].
  apply keeps_frame_bind; [apply keeps_frame_sink|]. intros _. apply IH.
Qed.

Lemma keeps_frame_insert f p e : keeps_frame (insert f p e).
Proof.
  unfold insert. apply keeps_frame_bind; [by apply keeps_frame_pure|]. intros c.
  apply keeps_frame_bind; [by apply keeps_frame_pure|]. intros sz.
  destruct (c <? sz); [|by apply keeps_frame_pure].
  apply keeps_frame_bind; [apply keeps_frame_set_count|]. intros _.
  apply keeps_frame_bind.
  { apply keeps_frame_bind; [by apply keeps_frame_pure|]. intros c1.
    apply keeps_frame_write. }
  intros _. apply keeps_frame_bind; [by apply keeps_frame_pure|]. intros c2.
  apply keeps_frame_float.
Qed.

Lemma keeps_frame_removeMax f : keeps_frame (removeMax f).
Proof.
  unfold removeMax. apply keeps_frame_bind; [by apply keeps_frame_pure|]. intros c.
  destruct (c =? 0); [by apply keeps_frame_pure|].
  destruct (c =? 1).
  - apply keeps_frame_bind; [apply keeps_frame_set_count|]. intros _.
    apply keeps_frame_bind; [by apply keeps_frame_pure|]. intros r.
    apply keeps_frame_bind; [apply keeps_frame_element_of|]. intros e.
    apply keeps_frame_bind; [apply keeps_frame_write|]. intros _.
    by apply keeps_frame_pure.
  - apply keeps_frame_bind; [apply keeps_frame_swap|]. intros _.
    apply keeps_frame_bind; [by apply keeps_frame_pure|]. intros r.
    apply keeps_frame_bind; [apply keeps_frame_element_of|]. intros e.
    apply keeps_frame_bind; [apply keeps_frame_write|]. intros _.
    apply keeps_frame_bind; [apply keeps_frame_set_count|]. intros _.
    apply keeps_frame_bind; [apply keeps_frame_sink|]. intros _.
    by apply keeps_frame_pure.
Qed.

Lemma keeps_frame_sort f : keeps_frame (sort f).
Proof.
  induction f as [|f IH]; [by apply keeps_frame_pure|].
  cbn [sort]. apply keeps_frame_bind; [by apply keeps_frame_pure|]. intros c.
  destruct (0 <? c); [|by apply keeps_frame_pure].
  apply keeps_frame_bind; [apply keeps_frame_swap|]. intros _.
  apply keeps_frame_bind; [apply keeps_frame_set_count|]. intros _.
  apply keeps_frame_bind; [apply keeps_frame_sink|]. intros _. apply IH.
Qed.

Lemma keeps_frame_exec f o : keeps_frame (exec f o).
Proof.
  destruct o; cbn [exec].
  - apply keeps_frame_bind; [apply keeps_frame_insert|]. intros ?. by apply keeps_frame_pure.
  - apply keeps_frame_bind; [apply keeps_frame_removeMax|]. intros ?. by apply keeps_frame_pure.
  - apply keeps_frame_bind; [by apply keeps_frame_pure|]. intros ?. by apply keeps_frame_pure.
  - apply keeps_frame_bind; [apply keeps_frame_sort|]. intros ?. by apply keeps_frame_pure.
Qed.

Lemma run_ops_frame fuel ops : forall s, frame s (run_ops fuel ops s).2.
Proof.
  induction ops as [|o os IH]; intros s; [apply frame_refl|].
  cbn [run_ops snd].
  destruct (exec fuel o s) as [r s1] eqn:E. cbn [snd].
  apply keeps_frame_exec in E. apply (frame_trans s s1); [done|]. apply IH.
Qed.

(** X8 -- no method reassigns the storage or the size, or touches another
    array.  Whatever the state, the fuel and the calls of [insert],
    [removeMax], [count] and [sort], and whether they return or throw, the
    object ends with the same [_storage] reference and the same [size], and
    every array of the memory other than the storage is unchanged. *)
Theorem methods_touch_only_the_storage :
  forall (fuel : nat) (ops : list op) (s : state),
    _storage (this (run_ops fuel ops s).2) = _storage (this s) /\
    size (this (run_ops fuel ops s).2) = size (this s) /\
    (forall l, l <> _storage (this s) ->
       mem (run_ops fuel ops s).2 !! l = mem s !! l).
Proof. intros fuel ops s. apply run_ops_frame. Qed.

(** ** [sort], cell by cell *)

Lemma cells_S a i k v : a !! i = Some v -> cells a i (S k) = v :: cells a (S i) k.
Proof. intros H. unfold cells. by rewrite (drop_S _ _ _ H). Qed.

Lemma cells_frame a a' i k :
  (forall j, i <= j -> a' !! j = a !! j) -> cells a' i k = cells a i k.
Proof.
  intros F. unfold cells. f_equal. apply list_eq. intros j.
  rewrite !lookup_drop. apply F. lia.
Qed.

Lemma live_weaken a n m : live a n -> m <= n -> live a m.
Proof. intros H Hm j Hj. apply H. lia. Qed.

Lemma rearranged_widen (R : nat -> Prop) m n a b :
  rearranged R m a b -> live a n -> (forall j, R j -> j <= m) ->
  rearranged R n a b.
Proof.
  intros (Hlen & Hl & Hp & F) Hn HR. split; [done|]. split; [|by split].
  intros j Hj. destruct (decide (j <= m)) as [Hjm|Hjm].
  - apply Hl. lia.
  - rewrite (aget_frame _ _ j (F j ltac:(intros ?%HR; lia))). by apply Hn.
Qed.

Lemma live_cells_root_max a c :
  live a c -> heap_ok a c -> Forall (fun v => kle v (aget a 1)) (live_cells a c).
Proof.
  intros Hl Hh. apply Forall_lookup. intros j v Hj.
  apply live_cells_lookup in Hj as [Hj Hc].
  rewrite <- (aget_lookup _ _ _ Hj). apply (heap_root_max a c); [done|lia].
Qed.

Lemma sort_full c : forall s n,
  _count (this s) = c -> c <= n -> n <= size (this s) ->
  length (storage s) = S (size (this s)) -> live (storage s) n ->
  exists s', settles sort s (Ok (_storage (this s))) s' /\
    _count (this s') = 0 /\ size (this s') = size (this s) /\
    _storage (this s') = _storage (this s) /\
    rearranged (fun j => 1 <= j <= n) n (storage s) (storage s') /\
    (heap_ok (storage s) c ->
     StronglySorted kle (cells (storage s) (S c) (n - c)) ->
     Forall (fun w => Forall (fun v => kle v w) (live_cells (storage s) c))
       (cells (storage s) (S c) (n - c)) ->
     StronglySorted kle (live_cells (storage s') n)).
Proof.
  induction c as [|c' IH]; intros s n Hc Hcn Hn Hlen Hl.
  { exists s. split; [exists 1; intros [|f] Hf; [lia|]; by apply run_sort_0|].
    split; [done|]. split; [done|]. split; [done|].
    split; [by apply rearranged_refl|].
    intros _ H1 _. by rewrite Nat.sub_0_r in H1. }
  set (a := storage s) in *. set (c := S c') in *.
  assert (Hc1 : 1 < length a) by (apply is_num_lt, Hl; lia).
  assert (Hcl : c < length a) by (apply is_num_lt, Hl; lia).
  destruct (Hl 1 ltac:(lia)) as (p1 & e1 & H1).
  set (r1 := SRec (Rec (Some p1) e1)) in *.
  set (a1 := swap_arr a 1 c).
  set (s2 := with_count (with_storage s a1) (c - 1)).
  assert (Hsw : rearranged (fun j => 1 <= j <= n) n a a1).
  { apply rearranged_swap; try done; lia. }
  assert (Hst2 : storage s2 = a1).
  { unfold s2. by rewrite storage_with_count, storage_with_storage. }
  assert (Hl1 : live a1 n) by apply Hsw.
  destruct (settles_sink 1 s2) as (s3 & [f1 Hs] & Ht & Hre & _ & Hh); [lia| |].
  { rewrite Hst2. cbn [s2 this with_count _count]. apply (live_weaken _ n); [done|lia]. }
  rewrite Hst2 in Hre, Hh. cbn [s2 this with_storage with_count _count] in Ht, Hre, Hh.
  assert (Hre' : rearranged (fun j => 1 <= j <= n) n a1 (storage s3)).
  { apply (rearranged_weaken (fun j => desc 1 j /\ j <= c - 1)).
    { intros j [?%desc_le ?]. lia. }
    apply (rearranged_widen _ (c - 1)); [done|done|]. by intros j [_ ?]. }
  destruct (IH s3 n) as (s' & [f2 Hs'] & Hc' & Hsz & Hloc & Hre2 & Hsorted).
  { rewrite Ht. cbn. lia. }
  { lia. }
  { rewrite Ht. cbn. lia. }
  { rewrite Ht. cbn [size]. destruct Hre' as (-> & _), Hsw as (-> & _). done. }
  { apply Hre'. }
  rewrite Ht in Hsz, Hloc, Hs'. cbn [_count size _storage] in Hsz, Hloc, Hs'.
  exists s'. split.
  { exists (S (f1 `max` f2)). intros [|f] Hf; [lia|].
    rewrite run_sort by (rewrite Hc; lia). rewrite Hc. fold a a1 s2.
    rewrite run_bind, Hs by lia. apply Hs'. lia. }
  split; [done|]. split; [done|]. split; [done|].
  split; [eapply rearranged_trans; [exact Hsw|]; eapply rearranged_trans; done|].
  intros Hok P1 P2. apply Hsorted.
  - apply heap_ok_at. replace c' with (c - 1) by lia. apply Hh.
    + intros x Hx Hd%desc_le. pose proof (half_spec x).
      unfold a1. rewrite !aget_swap_arr by done.
      rewrite !decide_False by lia. apply Hok. lia.
    + intros x Hx Hd%desc_le. pose proof (half_spec x).
      unfold a1. rewrite !aget_swap_arr by done.
      rewrite !decide_False by lia. apply Hok. lia.
  - replace (n - c') with (S (n - c)) by lia.
    assert (E3 : storage s3 !! c = Some r1).
    { destruct Hre as (_ & _ & _ & F). rewrite F by (intros [_ ?]; lia).
      apply aget_is_rec. unfold a1. rewrite aget_swap_arr by done.
      by rewrite decide_True. }
    rewrite (cells_S _ _ _ _ E3).
    rewrite (cells_frame a).
    2:{ intros j Hj. destruct Hre as (_ & _ & _ & F). rewrite F by (intros [_ ?]; lia).
        apply lookup_swap_arr_ne; try done; lia. }
    constructor; [done|].
    eapply Forall_impl; [exact P2|]. intros w Hw. cbn in Hw.
    assert (Hin : r1 ∈ live_cells a c).
    { apply list_elem_of_lookup. exists 0. apply live_cells_lookup.
      split; [by apply aget_is_rec|lia]. }
    by apply (proj1 (Forall_forall _ _) Hw).
  - replace (n - c') with (S (n - c)) by lia.
    assert (E3 : storage s3 !! c = Some r1).
    { destruct Hre as (_ & _ & _ & F). rewrite F by (intros [_ ?]; lia).
      apply aget_is_rec. unfold a1. rewrite aget_swap_arr by done.
      by rewrite decide_True. }
    rewrite (cells_S _ _ _ _ E3).
    rewrite (cells_frame a).
    2:{ intros j Hj. destruct Hre as (_ & _ & _ & F). rewrite F by (intros [_ ?]; lia).
        apply lookup_swap_arr_ne; try done; lia. }
    assert (Hperm : live_cells a c ≡ₚ live_cells (storage s3) c' ++ [r1]).
    { assert (Hswc : rearranged (fun j => 1 <= j <= c) c a a1).
      { apply rearranged_swap; try done; try lia. apply (live_weaken _ n); [done|lia]. }
      rewrite <- (live_cells_rearranged _ _ _ _ (fun j H => H) Hswc).
      assert (HR : forall j, desc 1 j /\ j <= c - 1 -> 1 <= j <= c - 1).
      { intros j [?%desc_le ?]. lia. }
      replace c' with (c - 1) by lia.
      rewrite (live_cells_rearranged _ _ _ _ HR Hre).
      unfold live_cells. replace c with (S (c - 1)) at 1 by lia.
      rewrite (take_S_r _ (c - 1) r1); [done|].
      rewrite lookup_drop. replace (1 + (c - 1)) with c by lia.
      apply aget_is_rec. unfold a1. rewrite aget_swap_arr by done.
      by rewrite decide_True. }
    assert (Htransfer : forall Q : slot -> Prop,
              Forall Q (live_cells a c) -> Forall Q (live_cells (storage s3) c')).
    { intros Q HQ. rewrite Hperm in HQ. by apply Forall_app in HQ as [? _]. }
    constructor.
    + apply Htransfer. fold (aget a 1) in H1. rewrite <- H1.
      apply live_cells_root_max; [|done]. apply (live_weaken _ n); [done|lia].
    + eapply Forall_impl; [exact P2|]. intros w Hw. by apply Htransfer.
Qed.

Lemma heap_ok_of_order s : heap_order s -> heap_ok (storage s) (_count (this s)).
Proof.
  intros H c Hc. specialize (H c ltac:(lia)). unfold _parent in H.
  destruct (aget (storage s) (c / 2)) as [| |[[x|] ?]]; try done.
  destruct (aget (storage s) c) as [| |[[y|] ?]]; done.
Qed.

Lemma settles_unique {A} (m : nat -> M A) s r1 s1 r2 s2 :
  settles m s r1 s1 -> settles m s r2 s2 -> r1 = r2 /\ s1 = s2.
Proof.
  intros [f1 H1] [f2 H2].
  specialize (H1 (f1 `max` f2) ltac:(lia)). specialize (H2 (f1 `max` f2) ltac:(lia)).
  rewrite H1 in H2. by inversion H2.
Qed.

Lemma ascending_records l : StronglySorted kle l -> ascending (omap slot_pair l).
Proof.
  unfold ascending. induction 1 as [|v l Hs IH Hv]; [constructor|].
  cbn. destruct (slot_pair v) as [x|] eqn:Ex; [|done].
  constructor; [done|]. apply Forall_forall. intros y Hy.
  apply list_elem_of_omap in Hy as (w & Hw & Ey).
  pose proof (proj1 (Forall_forall _ _) Hv w Hw) as Hk. unfold kle in Hk.
  destruct v as [| |[[p|] ?]]; try done. destruct w as [| |[[q|] ?]]; try done.
  inversion Ex; inversion Ey; subst. done.
Qed.

Lemma records_of_mk_array rs : records_of (mk_array rs) (length rs) = rs.
Proof.
  unfold records_of, live_cells, mk_array. cbn [drop].
  rewrite drop_0, take_ge by (rewrite length_map; lia).
  induction rs as [|[p e] rs IH]; [done|]. cbn. by rewrite IH.
Qed.

Lemma contents_records s : contents s = records_of (storage s) (_count (this s)).
Proof. done. Qed.

(** X9 -- [sort] on any well-formed heap.  [sort] returns the storage
    reference and leaves the count at 0; cells [1..n], for [n] the count
    before the call, hold the records they held, rearranged; cell 0, the
    cells after [n] and the length of the array are unchanged; a [removeMax]
    after it returns [undefined]. *)
Theorem sort_rearranges_the_live_cells :
  forall (s : state),
    wf s ->
    exists s',
      settles sort s (Ok (_storage (this s))) s' /\
      _count (this s') = 0 /\
      records_of (storage s') (_count (this s)) ≡ₚ contents s /\
      length (storage s') = length (storage s) /\
      (forall j, j = 0 \/ _count (this s) < j -> storage s' !! j = storage s !! j) /\
      (forall fuel, removeMax fuel s' = (Ok VUndefined, s')).
Proof.
  intros s (Hlen & Hc & Hl).
  destruct (sort_full _ s (_count (this s)) eq_refl (le_n _) Hc Hlen Hl)
    as (s' & Hs & Hc' & _ & _ & Hre & _).
  exists s'. split; [done|]. split; [done|]. split; [|split; [apply Hre|split]].
  - unfold records_of, contents.
    by rewrite (live_cells_rearranged _ _ _ _ (fun j H => H) Hre).
  - intros j Hj. destruct Hre as (_ & _ & _ & F). apply F. lia.
  - intros fuel. by apply run_removeMax_0.
Qed.

(** X10 -- [sort] on a heap.  When the storage is heap-ordered, [sort] leaves
    in cells [1..n] the records of the heap in ascending order of
    priority. *)
Theorem sort_of_a_heap_is_ascending :
  forall (s : state),
    wf s -> heap_order s ->
    exists s',
      settles sort s (Ok (_storage (this s))) s' /\
      records_of (storage s') (_count (this s)) ≡ₚ contents s /\
      ascending (records_of (storage s') (_count (this s))).
Proof.
  intros s (Hlen & Hc & Hl) Hh.
  destruct (sort_full _ s (_count (this s)) eq_refl (le_n _) Hc Hlen Hl)
    as (s' & Hs & _ & _ & _ & Hre & Hsorted).
  exists s'. split; [done|]. split.
  - unfold records_of, contents.
    by rewrite (live_cells_rearranged _ _ _ _ (fun j H => H) Hre).
  - apply ascending_records. apply Hsorted.
    + by apply heap_ok_of_order.
    + rewrite Nat.sub_diag. unfold cells. rewrite take_0. constructor.
    + rewrite Nat.sub_diag. unfold cells. rewrite take_0. constructor.
Qed.

(** ** [_buildheap] and [heapsort] on every array *)

Lemma buildheap_full k : forall i s,
  length (storage s) = S (size (this s)) -> live (storage s) (_count (this s)) ->
  S (size (this s)) - i = k -> 1 <= i ->
  exists s', settles (fun f => _buildheap_from f i) s (Ok tt) s' /\
    this s' = this s /\
    rearranged (fun j => 1 <= j <= _count (this s)) (_count (this s))
      (storage s) (storage s').
Proof.
  induction k as [|k IH]; intros i s Hlen Hl Hk Hi.
  { exists s. split; [|split; [done|by apply rearranged_refl]].
    exists 1. intros [|f] Hf; [lia|].
    cbn [_buildheap_from]. rewrite run_get_size.
    destruct (i <=? size (this s)) eqn:E; [apply Nat.leb_le in E; lia|done]. }
  destruct (settles_sink i s Hi Hl) as (s1 & [f1 Hs] & Ht & Hre & _).
  assert (Hre1 : rearranged (fun j => 1 <= j <= _count (this s)) (_count (this s))
                   (storage s) (storage s1)).
  { eapply rearranged_weaken; [|exact Hre]. intros j [?%desc_le ?]. lia. }
  destruct (IH (i + 1) s1) as (s' & [f2 Hs'] & Ht' & Hre2).
  { rewrite Ht. destruct Hre1 as (-> & _). done. }
  { rewrite Ht. apply Hre1. }
  { rewrite Ht. lia. }
  { lia. }
  rewrite Ht in Hre2.
  exists s'. split; [|split; [congruence|by eapply rearranged_trans]].
  exists (S (f1 `max` f2)). intros [|f] Hf; [lia|].
  cbn [_buildheap_from]. rewrite run_get_size.
  destruct (i <=? size (this s)) eqn:E; [|apply Nat.leb_gt in E; lia].
  rewrite run_bind, Hs by lia. apply Hs'. lia.
Qed.

Lemma sink_noop f i s :
  1 <= i -> live (storage s) (_count (this s)) ->
  heap_ok (storage s) (_count (this s)) ->
  _sink (S f) i s = (Ok tt, s).
Proof.
  intros Hi Hl Hh. rewrite sink_step by done.
  rewrite decide_False.
  2:{ intros [H1 H2]. specialize (Hh (2 * i) ltac:(lia)).
      rewrite half_double in Hh. lia. }
  rewrite decide_False; [done|].
  intros [H1 H2]. specialize (Hh (2 * i + 1) ltac:(lia)).
  rewrite half_double1 in Hh. lia.
Qed.

Lemma buildheap_noop k : forall i f s,
  live (storage s) (_count (this s)) -> heap_ok (storage s) (_count (this s)) ->
  S (size (this s)) - i <= k -> k < f -> 1 <= i ->
  _buildheap_from f i s = (Ok tt, s).
Proof.
  induction k as [|k IH]; intros i f s Hl Hh Hk Hf Hi;
    (destruct f as [|f]; [lia|]); cbn [_buildheap_from]; rewrite run_get_size.
  - destruct (i <=? size (this s)) eqn:E; [apply Nat.leb_le in E; lia|done].
  - destruct (i <=? size (this s)) eqn:E; [|done].
    destruct f as [|f]; [lia|].
    rewrite run_bind, sink_noop by done. apply IH; try done; lia.
Qed.

(** After [_buildheap] the storage is a heap when the subtrees under cells 2
    and 3 were heaps before it. *)
Lemma buildheap_heap s :
  length (storage s) = S (size (this s)) -> _count (this s) <= size (this s) ->
  live (storage s) (_count (this s)) ->
  heap_at (storage s) (_count (this s)) 2 ->
  heap_at (storage s) (_count (this s)) 3 ->
  forall s', settles _buildheap s (Ok tt) s' ->
  heap_ok (storage s') (_count (this s)).
Proof.
  intros Hlen Hc Hl H2 H3 s' Hs'.
  destruct (decide (1 <= size (this s))) as [Hsz|Hsz].
  2:{ intros c Hc'. lia. }
  destruct (settles_sink 1 s (le_n 1) Hl) as (s1 & [f1 Hs] & Ht & Hre & _ & Hh).
  specialize (Hh H2 H3). apply heap_ok_at in Hh.
  assert (E : settles _buildheap s (Ok tt) s1).
  { exists (S (S (f1 `max` S (size (this s))))). intros [|f] Hf; [lia|].
    unfold _buildheap. cbn [_buildheap_from]. rewrite run_get_size.
    destruct (1 <=? size (this s)) eqn:E1; [|apply Nat.leb_gt in E1; lia].
    rewrite run_bind, Hs by lia.
    apply (buildheap_noop (size (this s))); rewrite ?Ht; try done; try lia.
    apply Hre. }
  destruct (settles_unique _ _ _ _ _ _ Hs' E) as [_ ->]. done.
Qed.

Lemma heapsort_run a (m : gmap loc (list slot)) rs :
  exists s1 s',
    this s1 = mkMaxHeap a (length rs) (length rs) /\
    rearranged (fun j => 1 <= j <= length rs) (length rs) (mk_array rs) (storage s1) /\
    _count (this s') = 0 /\ size (this s') = length rs /\ _storage (this s') = a /\
    rearranged (fun j => 1 <= j <= length rs) (length rs) (storage s1) (storage s') /\
    (heap_at (mk_array rs) (length rs) 2 -> heap_at (mk_array rs) (length rs) 3 ->
     heap_ok (storage s1) (length rs) /\
     StronglySorted kle (live_cells (storage s') (length rs))) /\
    (forall l, l <> a -> mem s1 !! l = m !! l) /\
    (forall l, l <> a -> mem s' !! l = m !! l) /\
    (exists f0, forall fuel, f0 <= fuel ->
       new_fromArray fuel a (<[a := mk_array rs]> m) = (Ok tt, s1) /\
       heapsort fuel a (<[a := mk_array rs]> m) = (Ok tt, s')).
Proof.
  set (m' := <[a := mk_array rs]> m). set (n := length rs).
  assert (Ha : m' !!! a = mk_array rs) by (unfold m'; by rewrite lookup_total_insert_eq).
  assert (Hn : length (m' !!! a) - 1 = n).
  { rewrite Ha. unfold mk_array. cbn. rewrite length_map. unfold n. lia. }
  set (s0 := mkState (mkMaxHeap a n n) m').
  assert (Hst : storage s0 = mk_array rs) by done.
  assert (Hlen0 : length (storage s0) = S (size (this s0))).
  { rewrite Hst. unfold mk_array. cbn. by rewrite length_map. }
  assert (Hl0 : live (storage s0) (_count (this s0))).
  { rewrite Hst. intros j Hj. by apply aget_mk_array. }
  destruct (buildheap_full (S n - 1) 1 s0 Hlen0 Hl0 eq_refl (le_n 1))
    as (s1 & Hs1 & Ht1 & Hre1).
  rewrite Hst in Hre1. cbn [s0 this _count] in Hre1, Ht1.
  destruct (sort_full n s1 n) as (s' & Hs' & Hc' & Hsz' & Hloc' & Hre' & Hsorted);
    rewrite ?Ht1; cbn [_count size]; try done.
  { destruct Hre1 as (-> & _). unfold mk_array. cbn. by rewrite length_map. }
  { apply Hre1. }
  rewrite Ht1 in Hs', Hsz', Hloc'. cbn [_storage size] in Hs', Hsz', Hloc'.
  assert (Hrun : exists f0, forall fuel, f0 <= fuel ->
            new_fromArray fuel a m' = (Ok tt, s1) /\ sort fuel s1 = (Ok a, s')).
  { destruct Hs1 as [f1 Hf1], Hs' as [f2 Hf2]. exists (f1 `max` f2). intros fuel Hf.
    split; [|apply Hf2; lia].
    unfold new_fromArray, _buildheap. rewrite Hn. apply Hf1. lia. }
  destruct Hrun as [f0 Hrun].
  destruct (Hrun f0 (le_n _)) as [E1 E2].
  assert (F1 : frame s0 s1).
  { unfold new_fromArray, _buildheap in E1. rewrite Hn in E1.
    by apply keeps_frame_buildheap in E1. }
  assert (F2 : frame s1 s') by (by apply keeps_frame_sort in E2).
  assert (Hm' : forall l, l <> a -> m' !! l = m !! l).
  { intros l Hl. unfold m'. by rewrite lookup_insert_ne. }
  exists s1, s'. split; [done|]. split; [done|]. split; [done|].
  split; [done|]. split; [done|]. split; [done|]. split; [|split; [|split]].
  - intros H2 H3.
    assert (Hok : heap_ok (storage s1) n).
    { rewrite <- Hst in H2, H3.
      apply (buildheap_heap s0 Hlen0 (le_n _) Hl0 H2 H3). exact Hs1. }
    split; [done|]. apply Hsorted; [done|..];
      rewrite Nat.sub_diag; unfold cells; rewrite take_0; constructor.
  - intros l Hl. destruct F1 as (_ & _ & F1). rewrite F1 by done. by apply Hm'.
  - intros l Hl. destruct F1 as (K1 & _ & F1), F2 as (_ & _ & F2).
    rewrite F2 by (by rewrite K1). rewrite F1 by done. by apply Hm'.
  - exists f0. intros fuel Hf. destruct (Hrun fuel Hf) as [E1' E2'].
    split; [done|]. unfold heapsort. by rewrite E1', E2'.
Qed.

(** X14 -- [heapsort] keeps the records.  For every 1-indexed array of
    records, [heapsort] returns normally; afterwards the array holds in cells
    [1..n] the records it held, rearranged, cell 0 and the length are as they
    were, and no other array of the memory has changed. *)
Theorem heapsort_keeps_the_records :
  forall (a : loc) (m : gmap loc (list slot)) (rs : list (Z * value)),
    exists f0, forall fuel, f0 <= fuel ->
      exists s,
        heapsort fuel a (<[a := mk_array rs]> m) = (Ok tt, s) /\
        records_of (mem s !!! a) (length rs) ≡ₚ rs /\
        length (mem s !!! a) = S (length rs) /\
        (mem s !!! a) !! 0 = Some SNull /\
        (forall l, l <> a -> mem s !! l = m !! l).
Proof.
  intros a m rs.
  destruct (heapsort_run a m rs)
    as (s1 & s' & _ & Hre1 & _ & _ & Hloc & Hre2 & _ & _ & Hfr & [f0 Hrun]).
  exists f0. intros fuel Hf. exists s'. split; [by apply Hrun|].
  assert (Hre : rearranged (fun j => 1 <= j <= length rs) (length rs)
                  (mk_array rs) (storage s')) by (by eapply rearranged_trans).
  assert (Est : mem s' !!! a = storage s') by (unfold storage; by rewrite Hloc).
  rewrite Est. split; [|split; [|split; [|done]]].
  - unfold records_of.
    rewrite (live_cells_rearranged _ _ _ _ (fun j H => H) Hre).
    apply reflexive_eq, records_of_mk_array.
  - destruct Hre as (-> & _). unfold mk_array. cbn. by rewrite length_map.
  - destruct Hre as (_ & _ & _ & F). rewrite F by lia. done.
Qed.

Lemma heapsort_sorts_aux a (m : gmap loc (list slot)) rs :
  heap_at (mk_array rs) (length rs) 2 -> heap_at (mk_array rs) (length rs) 3 ->
  exists f0, forall fuel, f0 <= fuel ->
    exists s,
      heapsort fuel a (<[a := mk_array rs]> m) = (Ok tt, s) /\
      records_of (mem s !!! a) (length rs) ≡ₚ rs /\
      ascending (records_of (mem s !!! a) (length rs)).
Proof.
  intros H2 H3.
  destruct (heapsort_run a m rs)
    as (s1 & s' & _ & Hre1 & _ & _ & Hloc & Hre2 & Hsorted & _ & _ & [f0 Hrun]).
  destruct (Hsorted H2 H3) as [_ Hs].
  exists f0. intros fuel Hf. exists s'. split; [by apply Hrun|].
  assert (Hre : rearranged (fun j => 1 <= j <= length rs) (length rs)
                  (mk_array rs) (storage s')) by (by eapply rearranged_trans).
  assert (Est : mem s' !!! a = storage s') by (unfold storage; by rewrite Hloc).
  rewrite Est. split; [|by apply ascending_records].
  unfold records_of.
  rewrite (live_cells_rearranged _ _ _ _ (fun j H => H) Hre).
  apply reflexive_eq, records_of_mk_array.
Qed.

(** X15 -- [heapsort] sorts an array that is heap-ordered below the children of
    the root.  When every cell from 4 on holds a priority not greater than
    its parent's, as in any heap-ordered array or any array sorted in
    descending order, [heapsort] leaves the records in ascending order of
    priority. *)
Theorem heapsort_sorts_when_ordered_below_the_root :
  forall (a : loc) (m : gmap loc (list slot)) (rs : list (Z * value)),
    (forall c, 4 <= c <= length rs ->
       (key (aget (mk_array rs) c) <= key (aget (mk_array rs) (_parent c)))%Z) ->
    exists f0, forall fuel, f0 <= fuel ->
      exists s,
        heapsort fuel a (<[a := mk_array rs]> m) = (Ok tt, s) /\
        records_of (mem s !!! a) (length rs) ≡ₚ rs /\
        ascending (records_of (mem s !!! a) (length rs)).
Proof.
  intros a m rs H. unfold _parent in H. apply heapsort_sorts_aux.
  - intros c Hc Hd%desc_le. pose proof (half_spec c). apply H. lia.
  - intros c Hc Hd%desc_le. pose proof (half_spec c). apply H. lia.
Qed.

Lemma heapsort_sorts_when_ordered_below_the_root_witness :
  exists f0, forall fuel, f0 <= fuel ->
    exists s,
      heapsort fuel 0 (<[0 := mk_array (nums [2; 9; 7; 8; 1; 3]%Z)]> ∅) = (Ok tt, s) /\
      records_of (mem s !!! 0) (length (nums [2; 9; 7; 8; 1; 3]%Z)) ≡ₚ
        nums [2; 9; 7; 8; 1; 3]%Z /\
      ascending (records_of (mem s !!! 0) (length (nums [2; 9; 7; 8; 1; 3]%Z))).
Proof.
  apply (heapsort_sorts_when_ordered_below_the_root 0 ∅ (nums [2; 9; 7; 8; 1; 3]%Z)).
  intros c Hc. cbn in Hc.
  assert (c = 4 \/ c = 5 \/ c = 6) as [-> | [-> | ->]] by lia; vm_compute; discriminate.
Defined.

(** X16 -- [heapsort] sorts every array of at most three records, whatever
    their priorities. *)
Theorem heapsort_sorts_up_to_three_records :
  forall (a : loc) (m : gmap loc (list slot)) (rs : list (Z * value)),
    length rs <= 3 ->
    exists f0, forall fuel, f0 <= fuel ->
      exists s,
        heapsort fuel a (<[a := mk_array rs]> m) = (Ok tt, s) /\
        records_of (mem s !!! a) (length rs) ≡ₚ rs /\
        ascending (records_of (mem s !!! a) (length rs)).
Proof.
  intros a m rs H. apply heapsort_sorts_aux.
  - intros c Hc Hd%desc_le. pose proof (half_spec c). lia.
  - intros c Hc Hd%desc_le. pose proof (half_spec c). lia.
Qed.

Lemma heapsort_sorts_up_to_three_records_witness :
  exists f0, forall fuel, f0 <= fuel ->
    exists s,
      heapsort fuel 0 (<[0 := mk_array (nums [1; 2; 3]%Z)]> ∅) = (Ok tt, s) /\
      records_of (mem s !!! 0) (length (nums [1; 2; 3]%Z)) ≡ₚ nums [1; 2; 3]%Z /\
      ascending (records_of (mem s !!! 0) (length (nums [1; 2; 3]%Z))).
Proof.
  apply (heapsort_sorts_up_to_three_records 0 ∅ (nums [1; 2; 3]%Z)). cbn. lia.
Defined.

(** X11 -- a heap built from an array is the array, and it is full.  The
    constructor returns normally with the given array as storage and
    [size = count = length - 1]; the array holds the records it held,
    rearranged in cells [1..n]; no other array has changed; and an [insert]
    into the new heap throws the capacity error. *)
Theorem fromArray_heap_is_full :
  forall (a : loc) (m : gmap loc (list slot)) (rs : list (Z * value))
         (p : Z) (e : value),
    exists f0, forall fuel, f0 <= fuel ->
      exists s,
        new_fromArray fuel a (<[a := mk_array rs]> m) = (Ok tt, s) /\
        this s = mkMaxHeap a (length rs) (length rs) /\
        records_of (mem s !!! a) (length rs) ≡ₚ rs /\
        length (mem s !!! a) = S (length rs) /\
        (forall l, l <> a -> mem s !! l = m !! l) /\
        insert fuel p e s = (Throw HeapFull, s).
Proof.
  intros a m rs p e.
  destruct (heapsort_run a m rs)
    as (s1 & s' & Ht & Hre & _ & _ & _ & _ & _ & Hfr & _ & [f0 Hrun]).
  exists f0. intros fuel Hf. exists s1. split; [by apply Hrun|]. split; [done|].
  assert (Est : mem s1 !!! a = storage s1) by (unfold storage; by rewrite Ht).
  rewrite Est. split; [|split; [|split; [done|]]].
  - unfold records_of.
    rewrite (live_cells_rearranged _ _ _ _ (fun j H => H) Hre).
    apply reflexive_eq, records_of_mk_array.
  - destruct Hre as (-> & _). unfold mk_array. cbn. by rewrite length_map.
  - apply run_insert_full. rewrite Ht. cbn. lia.
Qed.

(** ** One call of [insert] or [removeMax] on any heap *)

Lemma inv_after_inserts fuel rs c (m : gmap loc (list slot)) :
  length rs <= c ->
  Forall (fun r => r <> NoFuel)
    (outcome <$> (run_ops fuel (ins <$> rs) (new_empty c m)).1) ->
  Inv true (run_ops fuel (ins <$> rs) (new_empty c m)).2.
Proof.
  intros Hlen Hout.
  destruct (inserts_spec rs (new_empty c m)) as (tr & s' & [f0 Hs] & Hinv & _);
    [apply new_empty_inv|cbn; lia|].
  specialize (Hs (fuel `max` f0) ltac:(lia)).
  rewrite (run_ops_stable fuel (fuel `max` f0) _ _ _ ltac:(lia) eq_refl Hout) in Hs.
  by rewrite Hs.
Qed.

Lemma heap_4231_inv : Inv true heap_4231.
Proof.
  apply inv_after_inserts; [cbn; lia|].
  assert (E : outcome <$> (run_ops 12 (ins <$> nums [4; 2; 3; 1]%Z) (new_empty 4 ∅)).1 =
              replicate 4 (Ok RUnit)) by (vm_compute; reflexivity).
  rewrite E. cbn. repeat (constructor; [discriminate|]). constructor.
Qed.

Lemma heap_42_inv : Inv true heap_42.
Proof.
  apply inv_after_inserts; [cbn; lia|].
  assert (E : outcome <$> (run_ops 12 (ins <$> nums [4; 2]%Z) (new_empty 4 ∅)).1 =
              replicate 2 (Ok RUnit)) by (vm_compute; reflexivity).
  rewrite E. cbn. repeat (constructor; [discriminate|]). constructor.
Qed.

(** X3 -- a successful [insert].  On a well-formed heap that is not full,
    [insert] returns normally, raises the count by one and adds exactly the
    given record to the records held; if the storage was heap-ordered it
    still is. *)
Theorem insert_adds_one_record :
  forall (p : Z) (e : value) (s : state),
    wf s -> _count (this s) < size (this s) ->
    exists s',
      settles (fun f => insert f p e) s (Ok tt) s' /\
      wf s' /\
      _count (this s') = _count (this s) + 1 /\
      contents s' ≡ₚ (p, e) :: contents s /\
      (heap_order s -> heap_order s').
Proof.
  intros p e s Hwf Hlt.
  destruct (insert_spec p e s Hwf Hlt) as (s' & Hs & Hwf' & Hc & _ & _ & Hp & Hh).
  exists s'. split; [done|]. split; [done|]. split; [done|]. split; [done|].
  intros Ho. apply heap_order_of_ok; [apply Hwf'|]. by apply Hh, heap_ok_of_order.
Qed.

Lemma insert_adds_one_record_witness :
  exists s',
    settles (fun f => insert f 9 (VStr "c")) heap_42 (Ok tt) s' /\
    wf s' /\
    _count (this s') = _count (this heap_42) + 1 /\
    contents s' ≡ₚ (9%Z, VStr "c") :: contents heap_42 /\
    (heap_order heap_42 -> heap_order s').
Proof.
  apply (insert_adds_one_record 9 (VStr "c") heap_42).
  - apply heap_42_inv.
  - vm_compute. lia.
Defined.

(** X4 -- [removeMax] returns a maximum.  On a well-formed, heap-ordered heap
    holding at least one record, [removeMax] returns the element of a record
    whose priority is at least that of every record held, removes exactly
    that record, lowers the count by one and keeps the heap order. *)
Theorem removeMax_returns_a_maximum :
  forall (s : state),
    wf s -> heap_order s -> 1 <= _count (this s) ->
    exists p v s',
      settles removeMax s (Ok v) s' /\
      contents s ≡ₚ (p, v) :: contents s' /\
      Forall (fun qe : Z * value => (qe.1 <= p)%Z) (contents s) /\
      _count (this s') = _count (this s) - 1 /\
      wf s' /\ heap_order s'.
Proof.
  intros s Hwf Ho Hc.
  destruct (removeMax_spec s Hwf) as (v & s' & Hs & Hwf' & Hc' & _ & _ & _ & Hroot & Hh).
  destruct (Hroot Hc) as (p & H1 & Hp).
  exists p, v, s'. split; [done|]. split; [done|]. split; [|split; [done|split; [done|]]].
  - apply Forall_forall. intros [q e] Hq.
    apply contents_elem in Hq as (j & Hj & Hjq).
    pose proof (heap_root_max _ _ j (heap_ok_of_order s Ho) Hj) as Hle.
    by rewrite Hjq, H1 in Hle.
  - apply heap_order_of_ok; [apply Hwf'|]. by apply Hh, heap_ok_of_order.
Qed.

Lemma removeMax_returns_a_maximum_witness :
  exists p v s',
    settles removeMax heap_4231 (Ok v) s' /\
    contents heap_4231 ≡ₚ (p, v) :: contents s' /\
    Forall (fun qe : Z * value => (qe.1 <= p)%Z) (contents heap_4231) /\
    _count (this s') = _count (this heap_4231) - 1 /\
    wf s' /\ heap_order s'.
Proof.
  apply (removeMax_returns_a_maximum heap_4231).
  - apply heap_4231_inv.
  - apply Inv_heap_order, heap_4231_inv.
  - vm_compute. lia.
Defined.

(** X5 -- [removeMax] clears the cell it vacates.  On a well-formed heap with
    [c >= 1] records, after [removeMax] cell [c] holds [null]; cell 0 and the
    cells after [c] are untouched. *)
Theorem removeMax_clears_the_vacated_cell :
  forall (s : state),
    wf s -> 1 <= _count (this s) ->
    exists v s',
      settles removeMax s (Ok v) s' /\
      aget (storage s') (_count (this s)) = SNull /\
      (forall j, j = 0 \/ _count (this s) < j -> storage s' !! j = storage s !! j).
Proof.
  intros s (Hlen & Hc & Hl) Hc1.
  set (a := storage s) in *. set (c := _count (this s)) in *.
  destruct (Hl 1 ltac:(lia)) as (p & v & H1).
  assert (Hcl : c < length a) by (apply is_num_lt, Hl; lia).
  destruct (decide (c = 1)) as [E1|N1].
  { exists v, (with_storage (with_count s 0) (aset a 1 SNull)). split.
    { exists 0. intros f _. by rewrite (run_removeMax_1 f s _ E1 H1). }
    rewrite storage_with_storage, aset_lt by lia. split.
    - rewrite aget_insert by lia. by rewrite decide_True.
    - intros j Hj. apply list_lookup_insert_ne. lia. }
  assert (Hc1' : 1 < length a) by lia.
  set (a1 := swap_arr a 1 c).
  set (s2 := with_count (with_storage s (aset a1 c SNull)) (c - 1)).
  assert (Hlen1 : length a1 = length a) by (by apply length_swap_arr).
  assert (Ha2 : storage s2 = <[c := SNull]> a1).
  { unfold s2. rewrite storage_with_count, storage_with_storage. apply aset_lt. lia. }
  assert (Hl2 : live (storage s2) (c - 1)).
  { intros j Hj. rewrite Ha2, aget_insert by lia. rewrite decide_False by lia.
    apply (live_swap a c); try done; lia. }
  destruct (settles_sink 1 s2) as (s' & [f0 Hs] & _ & (_ & _ & _ & F) & _); [lia|done|].
  cbn [s2 this with_storage with_count _count] in F.
  exists v, s'. split.
  { exists f0. intros f Hf.
    rewrite (run_removeMax f s _ ltac:(fold c; lia) Hcl H1).
    fold a c a1 s2. by rewrite run_bind, Hs. }
  split.
  - rewrite (aget_frame _ _ c (F c ltac:(intros [_ ?]; lia))).
    rewrite Ha2, aget_insert by lia. by rewrite decide_True.
  - intros j Hj. rewrite F.
    2:{ intros [?%desc_le ?]. lia. }
    rewrite Ha2. rewrite list_lookup_insert_ne by lia.
    apply lookup_swap_arr_ne; try done; lia.
Qed.

Lemma removeMax_clears_the_vacated_cell_witness :
  exists v s',
    settles removeMax heap_4231 (Ok v) s' /\
    aget (storage s') (_count (this heap_4231)) = SNull /\
    (forall j, j = 0 \/ _count (this heap_4231) < j ->
       storage s' !! j = storage heap_4231 !! j).
Proof.
  apply (removeMax_clears_the_vacated_cell heap_4231).
  - apply heap_4231_inv.
  - vm_compute. lia.
Defined.

(** X6 -- [insert] then [removeMax].  On a well-formed, heap-ordered heap that
    is not full, inserting a record whose priority is strictly greater than
    every priority held and calling [removeMax] returns the element just
    inserted and leaves the records held, the count and the heap order as
    they were before the two calls. *)
Theorem insert_then_removeMax_returns_it :
  forall (p : Z) (e : value) (s : state),
    wf s -> heap_order s -> _count (this s) < size (this s) ->
    Forall (fun qe : Z * value => (qe.1 < p)%Z) (contents s) ->
    exists tr s',
      settles_ops [OInsert p e; ORemoveMax] s tr s' /\
      outcome <$> tr = [Ok RUnit; Ok (RValue e)] /\
      contents s' ≡ₚ contents s /\
      _count (this s') = _count (this s) /\
      heap_order s'.
Proof.
  intros p e s Hwf Ho Hlt Hsmall.
  destruct (insert_spec p e s Hwf Hlt) as (s1 & [f1 Hs1] & Hwf1 & Hc1 & _ & _ & Hp1 & Hh1).
  specialize (Hh1 (heap_ok_of_order s Ho)).
  destruct (removeMax_spec s1 Hwf1)
    as (v & s2 & [f2 Hs2] & Hwf2 & Hc2 & _ & _ & _ & Hroot & Hh2).
  destruct (Hroot ltac:(lia)) as (q & H1 & Hq).
  assert (Hpq : (p <= q)%Z).
  { assert (Hin : (p, e) ∈ contents s1) by (rewrite Hp1; apply elem_of_cons; by left).
    apply contents_elem in Hin as (j & Hj & Hjq).
    pose proof (heap_root_max _ _ j Hh1 Hj) as Hle. by rewrite Hjq, H1 in Hle. }
  assert (Heq : (q, v) = (p, e)).
  { assert (Hin : (q, v) ∈ (p, e) :: contents s).
    { rewrite <- Hp1, Hq. apply elem_of_cons. by left. }
    apply elem_of_cons in Hin as [?|Hin]; [done|].
    pose proof (proj1 (Forall_forall _ _) Hsmall _ Hin) as Hlt'. cbn in Hlt'. lia. }
  inversion Heq; subst q v.
  exists [mkStep s (OInsert p e) (Ok RUnit) s1; mkStep s1 ORemoveMax (Ok (RValue e)) s2], s2.
  split; [|split; [done|split; [|split]]].
  - repeat apply settles_ops_cons; [| |apply settles_ops_nil].
    + exists f1. intros f Hf. cbn [exec]. by rewrite run_bind, Hs1.
    + exists f2. intros f Hf. cbn [exec]. by rewrite run_bind, Hs2.
  - rewrite Hp1 in Hq. by apply Permutation_cons_inv in Hq.
  - lia.
  - apply heap_order_of_ok; [apply Hwf2|]. by apply Hh2.
Qed.

Lemma insert_then_removeMax_returns_it_witness :
  exists tr s',
    settles_ops [OInsert 9 (VStr "c"); ORemoveMax] heap_42 tr s' /\
    outcome <$> tr = [Ok RUnit; Ok (RValue (VStr "c"))] /\
    contents s' ≡ₚ contents heap_42 /\
    _count (this s') = _count (this heap_42) /\
    heap_order s'.
Proof.
  apply (insert_then_removeMax_returns_it 9 (VStr "c") heap_42).
  - apply heap_42_inv.
  - apply Inv_heap_order, heap_42_inv.
  - vm_compute. lia.
  - assert (E : contents heap_42 = [(4%Z, VNum 4); (2%Z, VNum 2)])
      by (vm_compute; reflexivity).
    rewrite E. repeat (constructor; [cbn; lia|]). constructor.
Defined.

(** ** The count over a sequence of calls *)

Lemma exec_count o s :
  wf s ->
  exists r s', settles (fun f => exec f o) s r s' /\ wf s' /\
    size (this s') = size (this s) /\
    length (storage s') = length (storage s) /\
    _count (this s') = count_step (size (this s)) (_count (this s)) o.
Proof.
  intros Hwf. pose proof Hwf as (Hlen & Hc & _). destruct o as [p e| | |]; cbn [count_step].
  - destruct (decide (_count (this s) < size (this s))) as [Hlt|Hge].
    + destruct (insert_spec p e s Hwf Hlt) as (s' & [f0 Hs] & Hwf' & Hc' & Hsz & _).
      exists (Ok RUnit), s'. split; [|split; [done|split; [done|split]]].
      * exists f0. intros f Hf. cbn [exec]. by rewrite run_bind, Hs.
      * destruct Hwf' as (-> & _). by rewrite Hsz.
      * apply Nat.ltb_lt in Hlt. by rewrite Hlt.
    + exists (Throw HeapFull), s. split; [|split; [done|split; [done|split; [done|]]]].
      * exists 0. intros f _. cbn [exec]. by rewrite run_bind, run_insert_full.
      * apply Nat.ltb_nlt in Hge. by rewrite Hge.
  - destruct (removeMax_spec s Hwf) as (v & s' & [f0 Hs] & Hwf' & Hc' & Hsz & _).
    exists (Ok (RValue v)), s'. split; [|split; [done|split; [done|split; [|done]]]].
    + exists f0. intros f Hf. cbn [exec]. by rewrite run_bind, Hs.
    + destruct Hwf' as (-> & _). by rewrite Hsz.
  - exists (Ok (RNat (_count (this s)))), s. split; [by exists 0|done].
  - destruct (sort_spec _ s Hwf eq_refl) as (s' & [f0 Hs] & Hwf' & Hc' & Hsz & _).
    exists (Ok (RArray (_storage (this s)))), s'.
    split; [|split; [done|split; [done|split; [|done]]]].
    + exists f0. intros f Hf. cbn [exec]. by rewrite run_bind, Hs.
    + destruct Hwf' as (-> & _). by rewrite Hsz.
Qed.

Lemma run_ops_count ops : forall s,
  wf s ->
  exists tr s', settles_ops ops s tr s' /\ wf s' /\
    size (this s') = size (this s) /\
    length (storage s') = length (storage s) /\
    _count (this s') = count_model (size (this s)) (_count (this s)) ops.
Proof.
  induction ops as [|o os IH]; intros s Hwf.
  { exists [], s. split; [apply settles_ops_nil|done]. }
  destruct (exec_count o s Hwf) as (r & s1 & Hx & Hwf1 & Hsz1 & Hlen1 & Hc1).
  destruct (IH s1 Hwf1) as (tr & s' & Hos & Hwf' & Hsz' & Hlen' & Hc').
  exists (mkStep s o r s1 :: tr), s'. split; [by apply settles_ops_cons|].
  split; [done|]. split; [congruence|]. split; [congruence|].
  rewrite Hc', Hsz1, Hc1. done.
Qed.

(** X7 -- the count follows the calls, and the storage never grows.  From a
    well-formed heap, after any calls of [insert], [removeMax], [count] and
    [sort], the count is the one obtained by adding one for each [insert]
    made below capacity, nothing for an [insert] at capacity, subtracting one
    for each [removeMax] on a non-empty heap and resetting to 0 at each
    [sort]; it never exceeds the capacity, and the storage array keeps its
    length. *)
Theorem count_follows_the_calls :
  forall (ops : list op) (s : state),
    wf s ->
    exists f0, forall fuel, f0 <= fuel ->
      _count (this (run_ops fuel ops s).2) =
        count_model (size (this s)) (_count (this s)) ops /\
      _count (this (run_ops fuel ops s).2) <= size (this s) /\
      length (storage (run_ops fuel ops s).2) = length (storage s).
Proof.
  intros ops s Hwf.
  destruct (run_ops_count ops s Hwf) as (tr & s' & [f0 Hs] & Hwf' & Hsz & Hlen & Hc).
  exists f0. intros fuel Hf. rewrite Hs by done. cbn [snd].
  split; [done|]. split; [|done]. destruct Hwf' as (_ & ? & _). lia.
Qed.

Lemma count_follows_the_calls_witness :
  exists f0, forall fuel, f0 <= fuel ->
    _count (this (run_ops fuel
                    [ORemoveMax; OInsert 7 (VStr "x"); OInsert 8 (VStr "y"); OCount;
                     OSort; ORemoveMax; OInsert 1 (VStr "z")] heap_4231).2) =
      count_model (size (this heap_4231)) (_count (this heap_4231))
        [ORemoveMax; OInsert 7 (VStr "x"); OInsert 8 (VStr "y"); OCount;
         OSort; ORemoveMax; OInsert 1 (VStr "z")] /\
    _count (this (run_ops fuel
                    [ORemoveMax; OInsert 7 (VStr "x"); OInsert 8 (VStr "y"); OCount;
                     OSort; ORemoveMax; OInsert 1 (VStr "z")] heap_4231).2) <=
      size (this heap_4231) /\
    length (storage (run_ops fuel
                       [ORemoveMax; OInsert 7 (VStr "x"); OInsert 8 (VStr "y"); OCount;
                        OSort; ORemoveMax; OInsert 1 (VStr "z")] heap_4231).2) =
      length (storage heap_4231).
Proof.
  apply (count_follows_the_calls
           [ORemoveMax; OInsert 7 (VStr "x"); OInsert 8 (VStr "y"); OCount;
            OSort; ORemoveMax; OInsert 1 (VStr "z")] heap_4231).
  apply heap_4231_inv.
Defined.

Lemma sort_rearranges_the_live_cells_witness :
  exists s',
    settles sort heap_4231_sinking (Ok (_storage (this heap_4231_sinking))) s' /\
    _count (this s') = 0 /\
    records_of (storage s') (_count (this heap_4231_sinking)) ≡ₚ
      contents heap_4231_sinking /\
    length (storage s') = length (storage heap_4231_sinking) /\
    (forall j, j = 0 \/ _count (this heap_4231_sinking) < j ->
       storage s' !! j = storage heap_4231_sinking !! j) /\
    (forall fuel, removeMax fuel s' = (Ok VUndefined, s')).
Proof.
  apply (sort_rearranges_the_live_cells heap_4231_sinking).
  assert (Hc : _count (this heap_4231_sinking) = 3) by reflexivity.
  assert (Hsz : size (this heap_4231_sinking) = 4) by reflexivity.
  assert (Hlen : length (storage heap_4231_sinking) = 5) by (vm_compute; reflexivity).
  assert (H1 : aget (storage heap_4231_sinking) 1 = SRec (Rec (Some 1%Z) (VNum 1)))
    by (vm_compute; reflexivity).
  assert (H2 : aget (storage heap_4231_sinking) 2 = SRec (Rec (Some 2%Z) (VNum 2)))
    by (vm_compute; reflexivity).
  assert (H3 : aget (storage heap_4231_sinking) 3 = SRec (Rec (Some 3%Z) (VNum 3)))
    by (vm_compute; reflexivity).
  split; [|split].
  - rewrite Hlen, Hsz. reflexivity.
  - rewrite Hc, Hsz. lia.
  - intros j Hj. rewrite Hc in Hj.
    assert (j = 1 \/ j = 2 \/ j = 3) as [-> | [-> | ->]] by lia;
      rewrite ?H1, ?H2, ?H3; by eexists _, _.
Defined.

Lemma sort_of_a_heap_is_ascending_witness :
  exists s',
    settles sort heap_4231 (Ok (_storage (this heap_4231))) s' /\
    records_of (storage s') (_count (this heap_4231)) ≡ₚ contents heap_4231 /\
    ascending (records_of (storage s') (_count (this heap_4231))).
Proof.
  apply (sort_of_a_heap_is_ascending heap_4231).
  - apply heap_4231_inv.
  - apply Inv_heap_order, heap_4231_inv.
Defined.

(** ** Indices and exchanges *)

(** X1 -- parents and children.  The parent of either child of [i] is [i];
    from 2 on, a cell is the left or the right child of its parent; the
    parent of a cell from 1 on has a smaller index, and only cell 1 has
    parent 0; the children of [i >= 1] have greater indices, and no left
    child is a right child. *)
Theorem parent_and_children :
  forall (i j : nat),
    _parent (_left i) = i /\
    _parent (_right i) = i /\
    (2 <= i -> _left (_parent i) = i \/ _right (_parent i) = i) /\
    (1 <= i -> _parent i < i /\ (_parent i = 0 <-> i = 1)) /\
    (1 <= i -> i < _left i /\ _left i < _right i) /\
    _left i <> _right j.
Proof.
  intros i j. unfold _parent, _left, _right.
  pose proof (half_spec i) as [Ei Hm].
  split; [apply half_double|]. split; [apply half_double1|].
  split; [lia|]. split; [lia|]. split; lia.
Qed.

Lemma swap_arr_twice a i j :
  i < length a -> j < length a -> swap_arr (swap_arr a i j) i j = a.
Proof.
  intros Hi Hj.
  assert (Hlen := length_swap_arr a i j Hi Hj).
  apply list_eq. intros k.
  destruct (decide (k < length a)) as [Hk|Hk].
  2:{ rewrite !lookup_ge_None_2; [done|lia|].
      rewrite length_swap_arr; lia. }
  destruct (lookup_lt_is_Some_2 a k Hk) as [x Hx].
  destruct (lookup_lt_is_Some_2 (swap_arr (swap_arr a i j) i j) k) as [y Hy].
  { rewrite length_swap_arr; lia. }
  rewrite Hx, Hy. f_equal.
  rewrite <- (aget_lookup _ _ _ Hx), <- (aget_lookup _ _ _ Hy).
  rewrite aget_swap_arr by lia. rewrite !aget_swap_arr by done.
  repeat case_decide; subst; congruence.
Qed.

(** X2 -- [_swap] exchanges two cells and undoes itself.  For two indices
    within the array, [_swap] puts each cell's content in the other cell,
    leaves every other cell, the length and the count as they were, and a
    second [_swap] of the same indices restores the array. *)
Theorem swap_exchanges_and_undoes :
  forall (i j : nat) (s : state),
    i < length (storage s) -> j < length (storage s) ->
    (_swap i j s).1 = Ok tt /\
    aget (storage (_swap i j s).2) i = aget (storage s) j /\
    aget (storage (_swap i j s).2) j = aget (storage s) i /\
    (forall k, k <> i -> k <> j ->
       storage (_swap i j s).2 !! k = storage s !! k) /\
    length (storage (_swap i j s).2) = length (storage s) /\
    this (_swap i j s).2 = this s /\
    storage (_swap i j (_swap i j s).2).2 = storage s.
Proof.
  intros i j s Hi Hj. rewrite !run_swap. cbn [fst snd].
  rewrite !storage_with_storage. split; [done|].
  split; [|split; [|split; [|split; [|split; [done|]]]]].
  - rewrite aget_swap_arr by done. case_decide; [by subst|by rewrite decide_True].
  - rewrite aget_swap_arr by done. by rewrite decide_True.
  - intros k ??. by apply lookup_swap_arr_ne.
  - by apply length_swap_arr.
  - by apply swap_arr_twice.
Qed.

Lemma swap_exchanges_and_undoes_witness :
  (_swap 1 4 heap_4231).1 = Ok tt /\
  aget (storage (_swap 1 4 heap_4231).2) 1 = aget (storage heap_4231) 4 /\
  aget (storage (_swap 1 4 heap_4231).2) 4 = aget (storage heap_4231) 1 /\
  (forall k, k <> 1 -> k <> 4 ->
     storage (_swap 1 4 heap_4231).2 !! k = storage heap_4231 !! k) /\
  length (storage (_swap 1 4 heap_4231).2) = length (storage heap_4231) /\
  this (_swap 1 4 heap_4231).2 = this heap_4231 /\
  storage (_swap 1 4 (_swap 1 4 heap_4231).2).2 = storage heap_4231.
Proof.
  assert (Hlen : length (storage heap_4231) = 5) by (vm_compute; reflexivity).
  apply (swap_exchanges_and_undoes 1 4 heap_4231); rewrite Hlen; lia.
Defined.

(** ** Outside the documented inputs *)

Lemma aget_aset_eq a i v : aget (aset a i v) i = v.
Proof.
  unfold aset. case_decide as H.
  - rewrite aget_insert by done. by rewrite decide_True.
  - unfold aget. rewrite lookup_app_r by lia.
    rewrite lookup_app_r by (rewrite length_replicate; lia).
    rewrite length_replicate. by rewrite Nat.sub_diag.
Qed.

(** X17 -- [removeMax] on a cell that holds no record.  When the count is at
    least 1 and cell 1 holds [null] or [undefined] instead of a record, as
    after building a heap from an array with such a cell, [removeMax] throws
    a TypeError instead of returning [undefined]; with a count of 1 the count
    has already been lowered to 0 when it throws. *)
Theorem removeMax_throws_on_a_hole :
  forall (fuel : nat) (s : state),
    1 <= _count (this s) ->
    (forall r, aget (storage s) 1 <> SRec r) ->
    (removeMax fuel s).1 = Throw TypeError /\
    (_count (this s) = 1 -> _count (this (removeMax fuel s).2) = 0).
Proof.
  intros fuel s Hc Hr. unfold removeMax. rewrite run_get_count.
  destruct (_count (this s) =? 0) eqn:E0; [apply Nat.eqb_eq in E0; lia|].
  destruct (_count (this s) =? 1) eqn:E1.
  - rewrite run_set_count, run_read, storage_with_count.
    destruct (aget (storage s) 1) as [| |r] eqn:Ea; [..|by destruct (Hr r)];
      split; try done; intros _; cbn; apply Nat.eqb_eq in E1; lia.
  - apply Nat.eqb_neq in E1. rewrite run_swap_then, run_read, storage_with_storage.
    unfold swap_arr. rewrite aget_aset_eq.
    destruct (aget (storage s) 1) as [| |r] eqn:Ea; [..|by destruct (Hr r)];
      split; try done; intros ?; lia.
Qed.

Lemma removeMax_throws_on_a_hole_witness :
  (removeMax 5 heap_with_hole).1 = Throw TypeError /\
  (_count (this heap_with_hole) = 1 ->
   _count (this (removeMax 5 heap_with_hole).2) = 0).
Proof.
  apply (removeMax_throws_on_a_hole 5 heap_with_hole).
  - vm_compute. lia.
  - intros r. vm_compute. discriminate.
Defined.

(** ** Two heaps *)

(** X18 -- heaps made by the empty constructor do not share storage.  A heap
    created after another one has a different storage array, and whatever is
    called on the second heap, the storage of the first and every array that
    existed before are as they were. *)
Theorem new_heaps_do_not_share_storage :
  forall (c1 c2 : nat) (m : gmap loc (list slot)) (fuel : nat) (ops : list op),
    let h1 := new_empty c1 m in
    let h2 := new_empty c2 (mem h1) in
    _storage (this h2) <> _storage (this h1) /\
    mem (run_ops fuel ops h2).2 !! _storage (this h1) = Some (storage h1) /\
    (forall l arr, m !! l = Some arr ->
       mem (run_ops fuel ops h2).2 !! l = Some arr).
Proof.
  intros c1 c2 m fuel ops h1 h2.
  set (l1 := fresh (dom m)). set (l2 := fresh (dom (mem h1))).
  assert (H1 : l1 ∉ dom m) by apply is_fresh.
  assert (H2 : l2 ∉ dom (mem h1)) by apply is_fresh.
  assert (Hm1 : mem h1 = <[l1 := SNull :: replicate c1 blank]> m) by done.
  assert (Hne : l2 <> l1).
  { intros E. apply H2. rewrite E, Hm1. apply elem_of_dom.
    rewrite lookup_insert_eq. by eexists. }
  destruct (run_ops_frame fuel ops h2) as (_ & _ & F).
  change (_storage (this h2)) with l2 in *. change (_storage (this h1)) with l1.
  split; [done|]. split.
  - rewrite F by done. change (mem h2) with (<[l2 := SNull :: replicate c2 blank]> (mem h1)).
    rewrite lookup_insert_ne by done. rewrite Hm1, lookup_insert_eq.
    unfold h1. by rewrite storage_new_empty.
  - intros l arr Hl.
    assert (l <> l1).
    { intros ->. apply H1. apply elem_of_dom. by eexists. }
    assert (l <> l2).
    { intros ->. apply H2. rewrite Hm1. apply elem_of_dom.
      rewrite lookup_insert_ne by done. by eexists. }
    rewrite F by done. change (mem h2) with (<[l2 := SNull :: replicate c2 blank]> (mem h1)).
    rewrite lookup_insert_ne by done. rewrite Hm1. by rewrite lookup_insert_ne.
Qed.

(** ** When the constructor does build a heap *)

(** X12 -- the constructor leaves a heap-ordered array as it is.  When every
    cell from 2 on holds a priority not greater than its parent's, building a
    heap from the array returns normally, changes nothing in the memory, and
    the heap-order invariant holds. *)
Theorem fromArray_leaves_a_heap_ordered_array :
  forall (a : loc) (m : gmap loc (list slot)) (rs : list (Z * value)),
    (forall c, 2 <= c <= length rs ->
       (key (aget (mk_array rs) c) <= key (aget (mk_array rs) (_parent c)))%Z) ->
    exists f0, forall fuel, f0 <= fuel ->
      exists s,
        new_fromArray fuel a (<[a := mk_array rs]> m) = (Ok tt, s) /\
        mem s = <[a := mk_array rs]> m /\
        heap_order s.
Proof.
  intros a m rs H. unfold _parent in H.
  set (m' := <[a := mk_array rs]> m). set (n := length rs).
  assert (Ha : m' !!! a = mk_array rs) by (unfold m'; by rewrite lookup_total_insert_eq).
  assert (Hn : length (m' !!! a) - 1 = n).
  { rewrite Ha. unfold mk_array. cbn. rewrite length_map. unfold n. lia. }
  set (s0 := mkState (mkMaxHeap a n n) m').
  assert (Hst : storage s0 = mk_array rs) by done.
  assert (Hl0 : live (storage s0) (_count (this s0))).
  { rewrite Hst. intros j Hj. by apply aget_mk_array. }
  assert (Hok : heap_ok (storage s0) (_count (this s0))) by (by rewrite Hst).
  exists (S n). intros fuel Hf. exists s0. split; [|split; [done|]].
  - unfold new_fromArray, _buildheap. rewrite Hn.
    apply (buildheap_noop n); try done; cbn; lia.
  - by apply heap_order_of_ok.
Qed.

Lemma fromArray_leaves_a_heap_ordered_array_witness :
  exists f0, forall fuel, f0 <= fuel ->
    exists s,
      new_fromArray fuel 0 (<[0 := mk_array (nums [9; 5; 8; 1; 5]%Z)]> ∅) = (Ok tt, s) /\
      mem s = <[0 := mk_array (nums [9; 5; 8; 1; 5]%Z)]> ∅ /\
      heap_order s.
Proof.
  apply (fromArray_leaves_a_heap_ordered_array 0 ∅ (nums [9; 5; 8; 1; 5]%Z)).
  intros c Hc. cbn in Hc.
  assert (c = 2 \/ c = 3 \/ c = 4 \/ c = 5) as [-> | [-> | [-> | ->]]] by lia;
    vm_compute; discriminate.
Defined.

(** X13 -- the constructor builds a heap from an array that is heap-ordered
    below the children of the root.  When every cell from 4 on holds a
    priority not greater than its parent's, as in every array of at most
    three records, the heap-order invariant holds after the construction. *)
Theorem fromArray_heap_when_ordered_below_the_root :
  forall (a : loc) (m : gmap loc (list slot)) (rs : list (Z * value)),
    (forall c, 4 <= c <= length rs ->
       (key (aget (mk_array rs) c) <= key (aget (mk_array rs) (_parent c)))%Z) ->
    exists f0, forall fuel, f0 <= fuel ->
      exists s,
        new_fromArray fuel a (<[a := mk_array rs]> m) = (Ok tt, s) /\
        heap_order s.
Proof.
  intros a m rs H. unfold _parent in H.
  destruct (heapsort_run a m rs)
    as (s1 & s' & Ht & Hre & _ & _ & _ & _ & Hheap & _ & _ & [f0 Hrun]).
  destruct Hheap as [Hok _].
  { intros c Hc Hd%desc_le. pose proof (half_spec c). apply H. lia. }
  { intros c Hc Hd%desc_le. pose proof (half_spec c). apply H. lia. }
  exists f0. intros fuel Hf. exists s1. split; [by apply Hrun|].
  apply heap_order_of_ok; rewrite Ht; cbn [_count]; [apply Hre|done].
Qed.

Lemma fromArray_heap_when_ordered_below_the_root_witness :
  exists f0, forall fuel, f0 <= fuel ->
    exists s,
      new_fromArray fuel 0 (<[0 := mk_array (nums [2; 9; 7; 8; 1; 3]%Z)]> ∅) = (Ok tt, s) /\
      heap_order s.
Proof.
  apply (fromArray_heap_when_ordered_below_the_root 0 ∅ (nums [2; 9; 7; 8; 1; 3]%Z)).
  intros c Hc. cbn in Hc.
  assert (c = 4 \/ c = 5 \/ c = 6) as [-> | [-> | ->]] by lia; vm_compute; discriminate.
Defined.
